(** * Coulomb-gas flow / MCMC notebooks: shallow embedding and properties

    The notebooks are array programs over one floating-point dtype.  The
    embedding is written once over an interface [Scalar] of the arithmetic
    the code uses, and instantiated twice:
    - at IEEE binary64 ([float], the dtype selected by [jax_enable_x64]),
      the arithmetic the code runs in: statements about division by zero,
      signs, the step-width trace, and the inputs on which an identity of
      exact arithmetic fails in the last place;
    - at the real numbers [R], for statements scoped to exact arithmetic
      (the Hamiltonian as an index sum, permutation symmetry, the
      reparameterisation identity, the standard errors in closed form).
    Statements that hold in whichever arithmetic the code runs are proved
    over the interface itself.

    Library routines whose internals are not part of the notebooks (the
    network [flow.apply], [jax.jacfwd], [jnp.linalg.slogdet],
    [jax.scipy.stats.norm.logpdf], [jnp.exp], [jax.random.*], the optimiser
    update) are parameters of the sections that use them. *)

From Stdlib Require Import List Arith ZArith Lia Bool Permutation FinFun.
From Stdlib Require Import Floats.
From Stdlib Require Import Reals Lra.
Import ListNotations.

Set Warnings "-inexact-float".

(* ================================================================== *)
(** * Part I: definitions *)
(* ================================================================== *)

(** ** Scalars *)

Class Scalar (A : Type) : Type := {
  s0 : A;
  s1 : A;
  sadd : A -> A -> A;
  ssub : A -> A -> A;
  smul : A -> A -> A;
  sdiv : A -> A -> A;
  sopp : A -> A;
  ssqrt : A -> A;
  sltb : A -> A -> bool;      (* [x < y] *)
  of_int : nat -> A;          (* a non-negative Python int promoted to the dtype *)
  of_dec : nat -> nat -> A;   (* the decimal literal [m * 10^-k] *)
}.

Declare Scope scalar_scope.
Delimit Scope scalar_scope with S.
Infix "+" := sadd : scalar_scope.
Infix "-" := ssub : scalar_scope.
Infix "*" := smul : scalar_scope.
Infix "/" := sdiv : scalar_scope.
Notation "- x" := (sopp x) : scalar_scope.
Infix "<?" := sltb : scalar_scope.

(** Exact real arithmetic. *)
#[global] Instance R_Scalar : Scalar R := {|
  s0 := 0%R;
  s1 := 1%R;
  sadd := Rplus;
  ssub := Rminus;
  smul := Rmult;
  sdiv := Rdiv;
  sopp := Ropp;
  ssqrt := sqrt;
  sltb := fun x y => if Rlt_dec x y then true else false;
  of_int := INR;
  of_dec := fun m k => (INR m / INR (10 ^ k))%R;
|}.

(** IEEE 754 binary64, round to nearest even. *)
#[global] Instance float_Scalar : Scalar float := {|
  s0 := PrimFloat.zero;
  s1 := PrimFloat.one;
  sadd := PrimFloat.add;
  ssub := PrimFloat.sub;
  smul := PrimFloat.mul;
  sdiv := PrimFloat.div;
  sopp := PrimFloat.opp;
  ssqrt := PrimFloat.sqrt;
  sltb := PrimFloat.ltb;
  of_int := fun n => PrimFloat.of_uint63 (Uint63.of_Z (Z.of_nat n));
  of_dec := fun m k =>
    PrimFloat.div (PrimFloat.of_uint63 (Uint63.of_Z (Z.of_nat m)))
                  (PrimFloat.of_uint63 (Uint63.of_Z (Z.of_nat (10 ^ k))));
|}.

(** ** Array primitives (numpy / jax.numpy) *)

(** A 1-d array is a list, an N x D array a list of rows, a batch a list
    of N x D arrays. *)
Abbreviation mat A := (list (list A)).

Section Arrays.
Context {A : Type} `{Scalar A}.
Local Open Scope scalar_scope.

Fixpoint zip_with {X Y Z : Type} (f : X -> Y -> Z) (l : list X) (m : list Y)
  : list Z :=
  match l, m with
  | a :: l', b :: m' => f a b :: zip_with f l' m'
  | _, _ => []
  end.

(** [jnp.sum]: reduction with [+] from the additive unit.  The order of a
    reduction is not fixed by the library; it is taken left to right.  Over
    the reals the order is immaterial. *)
Definition jnp_sum (l : list A) : A := fold_left sadd l s0.

(** [jnp.mean]: the sum divided by the number of elements. *)
Definition jnp_mean (l : list A) : A := jnp_sum l / of_int (length l).

(** [jnp.std] with its default [ddof = 0]: square root of the mean of the
    squared deviations from the mean. *)
Definition jnp_std (l : list A) : A :=
  let m := jnp_mean l in
  ssqrt (jnp_mean (map (fun a => (a - m) * (a - m)) l)).

(** [x ** 2] on an array (lowered to [x * x]). *)
Definition square (l : list A) : list A := map (fun a => a * a) l.

(** [jnp.linalg.norm(v, axis=-1)] on one row: the 2-norm. *)
Definition norm (v : list A) : A := ssqrt (jnp_sum (square v)).

(** Row-major split of a flat buffer into [n] rows of [k] entries. *)
Fixpoint chunks {X : Type} (k n : nat) (l : list X) : list (list X) :=
  match n with
  | O => []
  | S n' => firstn k l :: chunks k n' (skipn k l)
  end.

(** [jnp.reshape(x, (n, dim))] of the buffer of [x]; raises (here [None])
    unless the buffer holds exactly [n * dim] entries. *)
Definition reshape {X : Type} (n dim : nat) (l : list X)
  : option (list (list X)) :=
  if length l =? n * dim then Some (chunks dim n l) else None.

(** [jnp.triu_indices(n, k)]: the positions [(i, j)], in row-major order,
    of the entries of an [n x n] matrix on or above the [k]-th diagonal. *)
Definition triu_indices (n k : nat) : list (nat * nat) :=
  filter (fun ij => fst ij + k <=? snd ij)
         (list_prod (seq 0 n) (seq 0 n)).

(** [jax.vmap] of a fallible per-sample function over the leading axis. *)
Fixpoint vmap {X Y : Type} (f : X -> option Y) (l : list X)
  : option (list Y) :=
  match l with
  | [] => Some []
  | a :: l' =>
      match f a, vmap f l' with
      | Some b, Some r => Some (b :: r)
      | _, _ => None
      end
  end.

(** ** EnergyModel: [energy_fn]

    [reshape(x,(n,1,dim)) - reshape(x,(1,n,dim))] broadcasts to the
    [n x n x dim] array of row differences; indexing it with [[i, j]]
    selects the difference of rows [i] and [j] for every index pair
    produced by [triu_indices]. *)
Definition energy_fn (x : mat A) (n dim : nat) : option A :=
  match reshape n dim (concat x) with
  | None => None
  | Some rows =>
      let ij := triu_indices n 1 in
      let rij :=
        map (fun p => norm (zip_with ssub (nth (fst p) rows [])
                                          (nth (snd p) rows []))) ij in
      Some (jnp_sum (square (concat x))
            + jnp_sum (map (fun r => s1 / r) rij))
  end.

Definition batch_energy (x : list (mat A)) (n dim : nat) : option (list A) :=
  vmap (fun xb => energy_fn xb n dim) x.

(** The declared shape [n x dim] of a configuration. *)
Definition shape (x : mat A) (n dim : nat) : Prop :=
  length x = n /\ Forall (fun r => length r = dim) x.

End Arrays.

(** ** Pseudo-random numbers ([jax.random])

    JAX random functions are pure functions of an explicit key.  They are
    taken as parameters: [split key num i] is [jax.random.split(key, num)[i]],
    and a sampler gives entry [i] of the flat buffer of the array of [size]
    entries it draws from [key]. *)

Record Random (key A : Type) : Type := {
  split : key -> nat -> nat -> key;
  normal_flat : key -> nat -> nat -> A;
  uniform_flat : key -> nat -> nat -> A;
}.
Arguments split {key A} _ _ _ _.
Arguments normal_flat {key A} _ _ _ _.
Arguments uniform_flat {key A} _ _ _ _.

Section RandomArrays.
Context {key A : Type} (rng : Random key A).

(** [jax.random.normal(key, (b, n, dim))] *)
Definition normal3 (k : key) (b n dim : nat) : list (list (list A)) :=
  let size := (b * n * dim)%nat in
  map (chunks dim n)
      (chunks (n * dim) b (map (normal_flat rng k size) (seq 0 size))).

(** [jax.random.uniform(key, (b,))] *)
Definition uniform1 (k : key) (b : nat) : list A :=
  map (uniform_flat rng k b) (seq 0 b).
End RandomArrays.

(** Every call of a [jax.random] function is recorded with the key it is
    given, so that statements about key consumption can be made. *)
Inductive rng_call (key : Type) : Type :=
| CallSplit (k : key)
| CallNormal (k : key).
Arguments CallSplit {key} k.
Arguments CallNormal {key} k.

(** ** The flow notebook: density, objective, training loop *)

Module Flow.
Section Flow.
Context {A : Type} `{Scalar A}.
Local Open Scope scalar_scope.

(** External collaborators. *)
Variable params : Type.
Variable flow_apply : params -> mat A -> mat A.   (* [flow.apply(params, None, z)] *)
Variable norm_logpdf : A -> A.                (* [jax.scipy.stats.norm.logpdf] *)
Variable jacfwd : (list A -> list A) -> list A -> mat A.   (* [jax.jacfwd(f)(z)] *)
Variable slogdet : mat A -> A * A.              (* [jnp.linalg.slogdet] *)

(** [z.shape] of a 2-d array. *)
Definition shape2 (z : mat A) : nat * nat :=
  (length z, length (hd [] z)).

(** [logp] inside [make_logp]: the density of one sample. *)
Definition logp_novmap (z : mat A) (p : params) : A * A * A * mat A :=
  let '(n, dim) := shape2 z in
  let x := flow_apply p z in
  let logqz := jnp_sum (map norm_logpdf (concat z)) in
  let z_flatten := concat z in
  let flow_flatten := fun zf => concat (flow_apply p (chunks dim n zf)) in
  let jac := jacfwd flow_flatten z_flatten in
  let '(_, logjacdet) := slogdet jac in
  let logpx := logqz - logjacdet in
  (logpx, logqz, logjacdet, x).

(** [logp = jax.vmap(logp_novmap, (0, None), (0, 0, 0, 0))] *)
Definition logp (z : list (mat A)) (p : params)
  : list A * list A * list A * list (mat A) :=
  let r := map (fun zb => logp_novmap zb p) z in
  (map (fun t => fst (fst (fst t))) r,
   map (fun t => snd (fst (fst t))) r,
   map (fun t => snd (fst t)) r,
   map (fun t => snd t) r).

(** The [observable] tuple. *)
Record observable : Type := {
  F_mean : A; F_std : A;
  E_mean : A; E_std : A;
  S_mean : A; S_std : A;
  x_out : list (mat A);
}.

(** [observable_and_lossfn] as built by [make_loss(logp, batch, n, dim, beta)]. *)
Definition make_loss
    (logp : list (mat A) -> params -> list A * list A * list A * list (mat A))
    (batch n dim : nat) (beta : A)
    (p : params) (z : list (mat A)) : option (A * observable) :=
  let '(logpx, _, logjacdet, x) := logp z p in
  match batch_energy x n dim with
  | None => None
  | Some Eloc =>
      let Floc := zip_with (fun l e => l / beta + e) logpx Eloc in
      let obs := {|
        F_mean := jnp_mean Floc;
        F_std := jnp_std Floc / ssqrt (of_int batch);
        E_mean := jnp_mean Eloc;
        E_std := jnp_std Eloc / ssqrt (of_int batch);
        S_mean := - jnp_mean logpx;
        S_std := jnp_std (map sopp logpx) / ssqrt (of_int batch);
        x_out := x |} in
      let gradf_theta :=
        jnp_mean (zip_with (fun j e => (- j) / beta + e) logjacdet Eloc) in
      Some (gradf_theta, obs)
  end.

Definition observable_and_lossfn (batch n dim : nat) (beta : A) :=
  make_loss logp batch n dim beta.

(** *** Training *)

Variable key : Type.
Variable rng : Random key A.
Variable opt_state grads : Type.
(* the gradient half of [jax.value_and_grad(observable_and_lossfn)] *)
Variable grad_lossfn : params -> list (mat A) -> grads.
(* [optimizer.update] followed by [optax.apply_updates] *)
Variable apply_update : grads -> opt_state -> params -> params * opt_state.

(** [update(params, opt_state, z)] *)
Definition update (batch n dim : nat) (beta : A)
    (p : params) (os : opt_state) (z : list (mat A))
  : option (params * opt_state * (A * observable)) :=
  match observable_and_lossfn batch n dim beta p z with
  | None => None
  | Some datas =>
      let grad_params := grad_lossfn p z in
      let '(p', os') := apply_update grad_params os p in
      Some (p', os', datas)
  end.

Record train_state : Type := {
  ts_key : key;
  ts_params : params;
  ts_opt : opt_state;
  loss_history : list (list A);
  ts_calls : list (rng_call key);   (* calls of [jax.random], oldest first *)
}.

(** One pass through the body of the training [for] loop. *)
Definition train_iter (batch n dim : nat) (beta : A) (s : train_state)
  : option train_state :=
  let k0 := ts_key s in
  (* key, subkey = jax.random.split(key) *)
  let key1 := split rng k0 2 0 in
  let subkey := split rng k0 2 1 in
  (* z = jax.random.normal(key, (batch, n, dim)) *)
  let z := normal3 rng key1 batch n dim in
  match update batch n dim beta (ts_params s) (ts_opt s) z with
  | None => None
  | Some (p', os', datas) =>
      let o := snd datas in
      Some {| ts_key := key1;
              ts_params := p';
              ts_opt := os';
              loss_history :=
                loss_history s ++
                [[F_mean o; F_std o; E_mean o; E_std o; S_mean o; S_std o]];
              ts_calls := ts_calls s ++ [CallSplit k0; CallNormal key1] |}
  end.

(** [for i in range(iters): ...] *)
Fixpoint train (iters : nat) (batch n dim : nat) (beta : A) (s : train_state)
  : option train_state :=
  match iters with
  | O => Some s
  | S k =>
      match train_iter batch n dim beta s with
      | None => None
      | Some s' => train k batch n dim beta s'
      end
  end.

End Flow.
End Flow.

(** ** The MCMC notebook: Metropolis sampler with adaptive width *)

Module Mcmc.
Section Mcmc.
Context {A : Type} `{Scalar A}.
Local Open Scope scalar_scope.

Variable key : Type.
Variable rng : Random key A.
Variable exp : A -> A.                        (* [jnp.exp] *)

(** [x.shape] of a 3-d array. *)
Definition shape3 (x : list (mat A)) : nat * nat * nat :=
  (length x, length (hd [] x), length (hd [] (hd [] x))).

(** [jnp.where(c, a, b)] with [c] one flag per leading index. *)
Fixpoint where_ {X : Type} (c : list bool) (a b : list X) : list X :=
  match c, a, b with
  | cb :: c', ab :: a', bb :: b' =>
      (if cb then ab else bb) :: where_ c' a' b'
  | _, _, _ => []
  end.

(** [accept.sum()] *)
Definition count_true (c : list bool) : nat :=
  length (filter (fun b => b) c).

(** The loop-carried state of [fori_loop]. *)
Definition state : Type := list (mat A) * list A * key * A.

(** [step(i, state)] inside [mcmc]; the loop index is not used. *)
Definition step (logp_fn : list (mat A) -> option (list A)) (mc_width : A)
    (i : nat) (st : state) : option state :=
  let '(x, logp, k, num_accepts) := st in
  let k' := split rng k 3 0 in
  let key_proposal := split rng k 3 1 in
  let key_accept := split rng k 3 2 in
  let '(b, n, dim) := shape3 x in
  let x_proposal :=
    zip_with (zip_with (zip_with (fun a e => a + mc_width * e)))
             x (normal3 rng key_proposal b n dim) in
  match logp_fn x_proposal with
  | None => None
  | Some logp_proposal =>
      let ratio := zip_with (fun lp l => exp (lp - l)) logp_proposal logp in
      let accept :=
        zip_with sltb (uniform1 rng key_accept (length ratio)) ratio in
      let x_new := where_ accept x_proposal x in
      let logp_new := where_ accept logp_proposal logp in
      let num_accepts := num_accepts + of_int (count_true accept) in
      Some (x_new, logp_new, k', num_accepts)
  end.

(** [jax.lax.fori_loop(lower, upper, body, init)] with a fallible body. *)
Fixpoint fori_loop_from {S : Type} (lower count : nat)
    (body : nat -> S -> option S) (init : S) : option S :=
  match count with
  | O => Some init
  | Datatypes.S c =>
      match body lower init with
      | None => None
      | Some s => fori_loop_from (Datatypes.S lower) c body s
      end
  end.

Definition fori_loop {S : Type} (lower upper : nat)
    (body : nat -> S -> option S) (init : S) : option S :=
  fori_loop_from lower (upper - lower) body init.

(** [mcmc(logp_fn, x_init, key, mc_steps, mc_width)] *)
Definition mcmc (logp_fn : list (mat A) -> option (list A))
    (x_init : list (mat A)) (k : key) (mc_steps : nat) (mc_width : A)
  : option (list (mat A) * A) :=
  match logp_fn x_init with
  | None => None
  | Some logp_init =>
      match fori_loop 0 mc_steps (step logp_fn mc_width)
                      (x_init, logp_init, k, s0) with
      | None => None
      | Some (x, logp, k', num_accepts) =>
          let batch := length x in
          let accept_rate := num_accepts / of_int (mc_steps * batch) in
          Some (x, accept_rate)
      end
  end.

(** [logp(beta, x, n, dim)], vmapped over the chains. *)
Definition logp (beta : A) (x : list (mat A)) (n dim : nat)
  : option (list A) :=
  vmap (fun xb =>
          match energy_fn xb n dim with
          | None => None
          | Some e => Some ((- beta) * e)
          end) x.

(** The two width updates that end the body of the sampling loop. *)
Definition adapt_width (acc mc_width : A) : A :=
  let mc_width :=
    if of_dec 525 3 <? acc then mc_width * of_dec 105 2 else mc_width in
  let mc_width :=
    if acc <? of_dec 475 3 then mc_width * of_dec 95 2 else mc_width in
  mc_width.

(** What one outer iteration prints. *)
Record report : Type := {
  rep_E : A;
  rep_acc : A;
  rep_width : A;
}.

Record sampler_state : Type := {
  sx : list (mat A);
  skey : key;
  swidth : A;
  printed : list report;
}.

(** One pass through the body of the sampling [for] loop. *)
Definition sample_iter (beta : A) (n dim mc_steps : nat) (s : sampler_state)
  : option sampler_state :=
  let key1 := split rng (skey s) 2 0 in
  let key_mcmc := split rng (skey s) 2 1 in
  let logp_fn := fun x => logp beta x n dim in
  match mcmc logp_fn (sx s) key_mcmc mc_steps (swidth s) with
  | None => None
  | Some (x, acc) =>
      match batch_energy x n dim with
      | None => None
      | Some energy =>
          let E := jnp_mean energy in
          Some {| sx := x;
                  skey := key1;
                  swidth := adapt_width acc (swidth s);
                  printed :=
                    printed s ++
                    [{| rep_E := E; rep_acc := acc; rep_width := swidth s |}]
               |}
      end
  end.

(** The state before the first outer iteration:
    [x = jax.random.normal(key, (batch, n, dim))]. *)
Definition sample_init (k : key) (batch n dim : nat) (mc_width : A)
  : sampler_state :=
  {| sx := normal3 rng k batch n dim;
     skey := k;
     swidth := mc_width;
     printed := [] |}.

Fixpoint sample_loop (iters : nat) (beta : A) (n dim mc_steps : nat)
    (s : sampler_state) : option sampler_state :=
  match iters with
  | O => Some s
  | Datatypes.S k =>
      match sample_iter beta n dim mc_steps s with
      | None => None
      | Some s' => sample_loop k beta n dim mc_steps s'
      end
  end.

(** The width after each of a sequence of reported acceptance rates. *)
Fixpoint width_trace (accs : list A) (mc_width : A) : list A :=
  match accs with
  | [] => []
  | acc :: rest =>
      let w := adapt_width acc mc_width in
      w :: width_trace rest w
  end.

End Mcmc.
End Mcmc.

(** ** The Hamiltonian as the specification writes it

    [H = sum_{i<j} 1 / |x_i - x_j| + sum_i x_i^2], with sums over indices. *)

Module Hamiltonian.
Local Open Scope R_scope.

(** [sum_{i < n} f i] *)
Fixpoint big_sum (f : nat -> R) (n : nat) : R :=
  match n with
  | O => 0
  | S k => big_sum f k + f k
  end.

(** Coordinate [d] of particle [i]. *)
Definition coord (x : mat R) (i d : nat) : R := nth d (nth i x []) 0.

(** Euclidean distance between particles [i] and [j]. *)
Definition distance (x : mat R) (dim i j : nat) : R :=
  sqrt (big_sum (fun d => (coord x i d - coord x j d) *
                          (coord x i d - coord x j d)) dim).

(** Confinement term: squared positions, over all coordinates. *)
Definition confinement (x : mat R) (n dim : nat) : R :=
  big_sum (fun i => big_sum (fun d => coord x i d * coord x i d) dim) n.

(** Interaction term: reciprocal distance over the pairs [i < j]. *)
Definition interaction (x : mat R) (n dim : nat) : R :=
  big_sum (fun i =>
    big_sum (fun j => if (i <? j)%nat then 1 / distance x dim i j else 0) n) n.

(** Adding the vector [t] to every particle. *)
Definition translate (t : list R) (x : mat R) : mat R :=
  map (fun r => zip_with Rplus r t) x.
End Hamiltonian.

Arguments Flow.logp_novmap {A H params} _ _ _ _ _ _.
Arguments Flow.logp {A H params} _ _ _ _ _ _.
Arguments Flow.make_loss {A H params} _ _ _ _ _ _ _.
Arguments Flow.observable_and_lossfn {A H params} _ _ _ _ _ _ _ _ _ _.
Arguments Flow.update {A H params} _ _ _ _ {opt_state grads} _ _ _ _ _ _ _ _ _.
Arguments Flow.train_iter {A H params} _ _ _ _ {key} _ {opt_state grads} _ _ _ _ _ _ _.
Arguments Flow.train {A H params} _ _ _ _ {key} _ {opt_state grads} _ _ _ _ _ _ _ _.
Arguments Flow.observable A : clear implicits.
Arguments Flow.train_state A params key opt_state : clear implicits.
Arguments Mcmc.state A key : clear implicits.
Arguments Mcmc.report A : clear implicits.
Arguments Mcmc.sampler_state A key : clear implicits.
Arguments Mcmc.sx {A key} _.
Arguments Mcmc.skey {A key} _.
Arguments Mcmc.swidth {A key} _.
Arguments Mcmc.printed {A key} _.
Arguments Mcmc.Build_sampler_state {A key} _ _ _ _.
Arguments Flow.ts_key {A params key opt_state} _.
Arguments Flow.ts_params {A params key opt_state} _.
Arguments Flow.ts_opt {A params key opt_state} _.
Arguments Flow.loss_history {A params key opt_state} _.
Arguments Flow.ts_calls {A params key opt_state} _.
Arguments Flow.Build_train_state {A params key opt_state} _ _ _ _ _.
Arguments Mcmc.step {A H key} _ _ _ _ _ _.
Arguments Mcmc.mcmc {A H key} _ _ _ _ _ _ _.
Arguments Mcmc.sample_iter {A H key} _ _ _ _ _ _ _.
Arguments Mcmc.sample_init {A key} _ _ _ _ _ _.
Arguments Mcmc.sample_loop {A H key} _ _ _ _ _ _ _ _.

(** ** Sample statistics as the specification writes them *)

Module Statistics.
Local Open Scope R_scope.
Import Hamiltonian.

Definition sample_mean (v : list R) : R :=
  big_sum (fun i => nth i v 0) (length v) / INR (length v).



End Statistics.

(** ** Sample collaborators

    The identity coordinate map with its unit Jacobian, used to run the
    estimator on concrete inputs. *)

Module Sample.
Local Open Scope R_scope.

Definition flow_apply (p : unit) (z : mat R) : mat R := z.
Definition norm_logpdf (a : R) : R := - (ln (2 * PI) + a * a) / 2.
Definition jacfwd (f : list R -> list R) (z : list R) : mat R :=
  map (fun i => map (fun j => if (i =? j)%nat then 1 else 0)
                    (seq 0 (length z)))
      (seq 0 (length z)).
Definition slogdet (m : mat R) : R * R := (1, 0).

(** One latent sample of two particles on a line. *)
Definition z : list (mat R) := [[[0]; [1]]].

(** A generator with integer keys whose normal draws are all 0 and whose
    uniform draws are all 1/2. *)
Definition rng : Random nat R := {|
  split := fun k num i => (k * num + i + 1)%nat;
  normal_flat := fun _ _ _ => 0;
  uniform_flat := fun _ _ _ => 1 / 2;
|}.

(** A flat target. *)
Definition target (xb : mat R) : option R := Some 0.

(** A map that sends every latent sample to the same configuration, and an
    optimiser that leaves the parameters alone. *)
Definition const_flow (p : unit) (z : mat R) : mat R := [[0]; [1]].
Definition grad_lossfn (p : unit) (z : list (mat R)) : unit := tt.
Definition apply_update (g os p : unit) : unit * unit := (p, os).

(** A second map, with a non-trivial Jacobian: every coordinate is
    doubled.  The Jacobian of a linear map is read off the images of the
    unit vectors, and [slogdet] of a matrix with positive determinant that
    is diagonal is the sum of the logarithms of its diagonal. *)
Definition double_flow (p : unit) (z : mat R) : mat R :=
  map (map (fun a => 2 * a)) z.
Definition unit_vector (k j : nat) : list R :=
  map (fun i => if (i =? j)%nat then 1 else 0) (seq 0 k).
Definition jacfwd_linear (f : list R -> list R) (z : list R) : mat R :=
  map (fun i => map (fun j => nth i (f (unit_vector (length z) j)) 0)
                    (seq 0 (length z)))
      (seq 0 (length (f z))).
Definition slogdet_diagonal (m : mat R) : R * R :=
  (1, jnp_sum (map (fun i => ln (Rabs (nth i (nth i m []) 0)))
                   (seq 0 (length m)))).

(** A latent batch of two samples of two particles on a line. *)
Definition z2 : list (mat R) := [[[0]; [1]]; [[1]; [3]]].


(** The training state before the first iteration, seeded with 42. *)
Definition train_init : Flow.train_state R unit nat unit := {|
  Flow.ts_key := 42%nat;
  Flow.ts_params := tt;
  Flow.ts_opt := tt;
  Flow.loss_history := [];
  Flow.ts_calls := [];
|}.
End Sample.

(** ** Sample collaborators in binary64

    The identity coordinate map, whose Jacobian is the unit matrix, with
    sign 1 and log-magnitude 0 of the determinant; the standard-normal
    log-density as [jax.scipy.stats.norm.logpdf] computes it,
    [(log(2 pi) + a^2) / -2]. *)

Module SampleFloat.
Definition flow_apply (p : unit) (z : mat float) : mat float := z.
Definition norm_logpdf (a : float) : float :=
  PrimFloat.div (PrimFloat.add 1.8378770664093453%float (PrimFloat.mul a a))
                (PrimFloat.opp 2%float).
Definition jacfwd (f : list float -> list float) (z : list float)
  : mat float :=
  map (fun i => map (fun j => if (i =? j)%nat then 1%float else 0%float)
                    (seq 0 (length z)))
      (seq 0 (length z)).
Definition slogdet (m : mat float) : float * float := (1%float, 0%float).

(** A latent batch of two samples of two particles on a line. *)
Definition z : list (mat float) :=
  [[[0%float]; [1%float]]; [[1%float]; [3%float]]].
End SampleFloat.

(** ** One chain of the Metropolis step, as the specification writes it

    Propose, evaluate the target at the proposal, form the ratio, compare
    it with the chain's uniform draw, adopt or retain. *)

Module Chain.
Section Chain.
Context {A : Type} `{Scalar A}.
Local Open Scope scalar_scope.

Variable exp : A -> A.
Variable target : mat A -> option A.

Definition propose (mc_width : A) (xb noise : mat A) : mat A :=
  zip_with (zip_with (fun a e => a + mc_width * e)) xb noise.

Definition ratio (logp_proposal logp : A) : A := exp (logp_proposal - logp).

(** New positions, new log-density and the decision of one chain, from its
    own positions [xb], log-density [lb], noise [noise] and draw [u]. *)
Definition chain_step (mc_width : A) (xb : mat A) (lb : A)
    (noise : mat A) (u : A) : option (mat A * A * bool) :=
  match target (propose mc_width xb noise) with
  | None => None
  | Some lp =>
      let accept := u <? ratio lp lb in
      Some (if accept then propose mc_width xb noise else xb,
            if accept then lp else lb,
            accept)
  end.

End Chain.
End Chain.

(** ** The arrays of one Metropolis step *)

Section StepArrays.
Context {A : Type} `{Scalar A}.
Local Open Scope scalar_scope.

Variable key : Type.
Variable rng : Random key A.
Variable exp : A -> A.

(** The arrays that [step] builds from the state [(x, logp, k, _)]. *)
Definition step_noise (x : list (mat A)) (k : key) : list (mat A) :=
  let '(b, n, dim) := Mcmc.shape3 x in
  normal3 rng (split rng k 3 1) b n dim.

Definition step_uniform (x : list (mat A)) (k : key) : list A :=
  uniform1 rng (split rng k 3 2) (length x).

Definition step_proposal (w : A) (x : list (mat A)) (k : key) : list (mat A) :=
  zip_with (Chain.propose w) x (step_noise x k).

Definition step_accept (x : list (mat A)) (k : key) (lp logp : list A)
  : list bool :=
  zip_with sltb (step_uniform x k) (zip_with (Chain.ratio exp) lp logp).

(** The decisions of one step on a batched target: one flag per chain. *)
Definition step_decisions (target : mat A -> option A) (w : A)
    (x : list (mat A)) (logp : list A) (k : key) : option (list bool) :=
  match vmap target (step_proposal w x k) with
  | None => None
  | Some lp => Some (step_accept x k lp logp)
  end.

End StepArrays.
Arguments step_decisions {A H key} _ _ _ _ _ _ _.
Arguments step_noise {A key} _ _ _.
Arguments step_uniform {A key} _ _ _.
Arguments step_proposal {A H key} _ _ _ _.
Arguments step_accept {A H key} _ _ _ _ _ _.

(** The target of the sampler for one chain: [-beta * energy]. *)
Definition boltzmann {A : Type} `{Scalar A} (beta : A) (n dim : nat)
    (xb : mat A) : option A :=
  match energy_fn xb n dim with
  | None => None
  | Some e => Some (smul (sopp beta) e)
  end.

(** The invariant of the loop-carried state: every chain has the declared
    shape and its stored log-density is the target at its stored positions. *)
Definition chain_invariant {A : Type} `{Scalar A} {key : Type}
    (beta : A) (n dim : nat) (st : Mcmc.state A key) : Prop :=
  let '(x, logp, _, _) := st in
  length logp = length x
  /\ forall c, c < length x ->
       shape (nth c x []) n dim
       /\ boltzmann beta n dim (nth c x []) = Some (nth c logp s0).

(** The widths obtained from [w] by applying the multipliers [ms] in
    order, in binary64. *)
Fixpoint compound (ms : list float) (w : float) : list float :=
  match ms with
  | [] => []
  | m :: rest => PrimFloat.mul w m :: compound rest (PrimFloat.mul w m)
  end.

(** ** Classes of binary64 values

    Sign and kind of a float through its specification [Prim2SF].  The
    flag [nan_ok] says whether NaN is allowed: with [nan_ok = true] the
    classes describe arbitrary inputs, with [nan_ok = false] inputs whose
    coordinates are finite numbers. *)

Definition sf_ok (nan_ok : bool) (f : spec_float) : Prop :=
  match f with
  | S754_zero s | S754_infinity s | S754_finite s _ _ => s = false
  | S754_nan => nan_ok = true
  end.
Definition sf_any (nan_ok : bool) (f : spec_float) : Prop :=
  match f with
  | S754_nan => nan_ok = true
  | _ => True
  end.
Definition sf_fin (nan_ok : bool) (f : spec_float) : Prop :=
  match f with
  | S754_zero _ | S754_finite _ _ _ => True
  | _ => nan_ok = true
  end.
Definition sf_top (nan_ok : bool) (f : spec_float) : Prop :=
  match f with
  | S754_infinity false => True
  | S754_nan => nan_ok = true
  | _ => False
  end.

(** Coordinates allowed at level [b]: anything when NaN is allowed,
    finite numbers otherwise. *)
Definition coords_ok (b : bool) (x : mat float) : Prop :=
  Forall (Forall (fun a => sf_fin b (Prim2SF a))) x.

(** Reciprocal distance of two rows, as [energy_fn] computes it. *)
Definition coulomb (a b : list R) : R := sdiv s1 (norm (zip_with ssub a b)).

(** The interaction term by recursion on the list of particles: every
    particle is paired with the particles that follow it. *)
Fixpoint pair_sum (g : list R -> list R -> R) (x : mat R) : R :=
  match x with
  | [] => 0%R
  | a :: l => (jnp_sum (map (g a) l) + pair_sum g l)%R
  end.

(** ** The flow network: [NeuralNetwork.__call__]

    The multilayer perceptron itself is a parameter; its last layer has
    [n * dim] units. *)

Module Network.
Section Network.
Context {A : Type}.

Variable params : Type.
Variable mlp : params -> list A -> list A.     (* [self.network] *)

(** [jnp.reshape(z, (size,))] *)
Definition reshape1 (size : nat) (l : list A) : option (list A) :=
  if length l =? size then Some l else None.

(** [__call__(self, z)], as run by [flow.apply(params, None, z)]. *)
Definition call (n dim : nat) (p : params) (z : mat A) : option (mat A) :=
  match reshape1 (n * dim) (concat z) with
  | None => None
  | Some z_flatten =>
      let x_flatten := mlp p z_flatten in
      reshape n dim x_flatten
  end.

End Network.
End Network.
Arguments Network.reshape1 {A} _ _.
Arguments Network.call {A params} _ _ _ _ _.

(** ** The energy-minimisation notebook: gradient descent on [energy_fn] *)

Module Descent.
Section Descent.
Context {A : Type} `{Scalar A}.
Local Open Scope scalar_scope.

(* the gradient half of [jax.value_and_grad(energy_fn)(x, n, dim)] *)
Variable grad_energy : mat A -> nat -> nat -> mat A.

(** [energy_and_grad = jax.value_and_grad(energy_fn)] *)
Definition energy_and_grad (x : mat A) (n dim : nat) : option (A * mat A) :=
  match energy_fn x n dim with
  | None => None
  | Some energy => Some (energy, grad_energy x n dim)
  end.

(** [energy_optimize(x)], with the globals [n], [dim], [lr]. *)
Definition energy_optimize (lr : A) (n dim : nat) (x : mat A)
  : option (mat A * A * mat A) :=
  match energy_and_grad x n dim with
  | None => None
  | Some (energy, grad) =>
      let x' := zip_with (zip_with (fun a g => a - lr * g)) x grad in
      Some (x', energy, map (map (fun g => (- g) * of_dec 1 1)) grad)
  end.

(** [for i in range(iters): x, e, g = energy_optimize(x);
    energy_history.append([e])] *)
Fixpoint optimize_loop (iters : nat) (lr : A) (n dim : nat)
    (x : mat A) (energy_history : list (list A))
  : option (mat A * list (list A)) :=
  match iters with
  | O => Some (x, energy_history)
  | S k =>
      match energy_optimize lr n dim x with
      | None => None
      | Some (x', e, g) =>
          optimize_loop k lr n dim x' (energy_history ++ [[e]])
      end
  end.

End Descent.
End Descent.
Arguments Descent.energy_and_grad {A H} _ _ _ _.
Arguments Descent.energy_optimize {A H} _ _ _ _ _.
Arguments Descent.optimize_loop {A H} _ _ _ _ _ _ _.

(** The keys of the training loop: the [i]-th carried key after the seed. *)
Definition carried_key {key A : Type} (rng : Random key A) (seed : key)
    (i : nat) : key :=
  Nat.iter i (fun k => split rng k 2 0) seed.

(** The calls of [jax.random] made by iterations [first .. first + iters - 1]
    of the training loop started from [seed]. *)
Definition training_calls {key A : Type} (rng : Random key A) (seed : key)
    (first iters : nat) : list (rng_call key) :=
  flat_map (fun i => [CallSplit (carried_key rng seed i);
                      CallNormal (carried_key rng seed (S i))])
           (seq first iters).

(** The loop state after [t] steps on a batch of [b] chains: the invariant
    holds, the batch size is [b], and the counter is a whole number of at
    most [t * b] accepts. *)
Definition counted {key : Type} (beta : R) (n dim b t : nat)
    (st : Mcmc.state R key)
  : Prop :=
  chain_invariant beta n dim st
  /\ length (fst (fst (fst st))) = b
  /\ exists m : nat, snd st = INR m /\ (m <= t * b)%nat.

(* ================================================================== *)
(** * Part II: properties *)
(* ================================================================== *)

(** ** The model runs *)

Example triu_indices_3 : triu_indices 3 1 = [(0, 1); (0, 2); (1, 2)].
Proof. reflexivity. Qed.

Example energy_fn_line_binary64 :
  energy_fn [[0%float]; [1%float]] 2 1 = Some 2%float.
Proof. vm_compute. reflexivity. Qed.

Example energy_fn_triangle_binary64 :
  energy_fn [[0%float; 0%float]; [3%float; 0%float]; [0%float; 4%float]] 3 2
  = Some (25 + (1 / 3 + 1 / 4 + 1 / 5))%float.
Proof. vm_compute. reflexivity. Qed.

Example energy_fn_wrong_shape :
  energy_fn [[0%float]; [1%float]] 3 1 = None.
Proof. reflexivity. Qed.

Example adapt_width_up : Mcmc.adapt_width 0.6%float 0.1%float = (0.1 * 1.05)%float.
Proof. vm_compute. reflexivity. Qed.

(** ** Lists and index pairs *)

Lemma chunks_concat {X : Type} (dim : nat) (x : list (list X)) :
  Forall (fun r => length r = dim) x ->
  chunks dim (length x) (concat x) = x.
Proof.
  induction 1 as [| r x Hr _ IH]; simpl; [reflexivity |].
  rewrite firstn_app, skipn_app, Hr, Nat.sub_diag. simpl.
  rewrite <- Hr at 1 3.
  rewrite firstn_all, skipn_all, app_nil_r. simpl.
  now rewrite IH.
Qed.

Lemma length_concat_rows {X : Type} (dim : nat) (x : list (list X)) :
  Forall (fun r => length r = dim) x ->
  length (concat x) = length x * dim.
Proof.
  induction 1 as [| r x Hr _ IH]; simpl; [reflexivity |].
  rewrite length_app, IH, Hr. reflexivity.
Qed.

Lemma reshape_concat {X : Type} (n dim : nat) (x : list (list X)) :
  length x = n -> Forall (fun r => length r = dim) x ->
  reshape n dim (concat x) = Some x.
Proof.
  intros Hn Hrows. unfold reshape.
  rewrite (length_concat_rows dim x Hrows), Hn, Nat.eqb_refl.
  now rewrite <- Hn, chunks_concat.
Qed.



Lemma triu_indices_In (n i j : nat) :
  In (i, j) (triu_indices n 1) <-> i < j < n.
Proof.
  unfold triu_indices. rewrite filter_In, in_prod_iff, !in_seq. simpl.
  rewrite Nat.leb_le. lia.
Qed.






(** ** Sums over the reals *)

(** Unfold the arithmetic of [R_Scalar]. *)
Ltac scalar := cbn [sadd ssub smul sdiv sopp ssqrt s0 s1 of_int R_Scalar] in *.

Section RealSums.
Import Hamiltonian.
Local Open Scope R_scope.

Lemma fold_left_Rplus (l : list R) (a : R) :
  fold_left Rplus l a = a + fold_left Rplus l 0.
Proof.
  revert a. induction l as [| b l IH]; intros a; simpl; [lra |].
  rewrite (IH (a + b)), (IH (0 + b)). lra.
Qed.

Lemma jnp_sum_nil : jnp_sum (A := R) [] = 0.
Proof. reflexivity. Qed.

Lemma jnp_sum_cons (a : R) (l : list R) : jnp_sum (a :: l) = a + jnp_sum l.
Proof.
  unfold jnp_sum. scalar. simpl. rewrite fold_left_Rplus. lra.
Qed.

Lemma jnp_sum_app (l m : list R) : jnp_sum (l ++ m) = jnp_sum l + jnp_sum m.
Proof.
  induction l as [| a l IH]; simpl.
  - rewrite jnp_sum_nil. lra.
  - rewrite !jnp_sum_cons, IH. lra.
Qed.

Lemma big_sum_ext (f g : nat -> R) (n : nat) :
  (forall i, (i < n)%nat -> f i = g i) -> big_sum f n = big_sum g n.
Proof.
  induction n as [| n IH]; intros E; simpl; [reflexivity |].
  rewrite IH, (E n) by auto. reflexivity.
Qed.

Lemma big_sum_shift (f : nat -> R) (n : nat) :
  big_sum f (S n) = f O + big_sum (fun i => f (S i)) n.
Proof.
  induction n as [| n IH]; [simpl; lra |].
  change (big_sum f (S (S n))) with (big_sum f (S n) + f (S n)).
  rewrite IH. simpl. lra.
Qed.

Lemma big_sum_zero (n : nat) : big_sum (fun _ => 0) n = 0.
Proof. induction n as [| n IH]; simpl; [reflexivity | rewrite IH; lra]. Qed.

Lemma big_sum_nonneg (f : nat -> R) (n : nat) :
  (forall i, (i < n)%nat -> 0 <= f i) -> 0 <= big_sum f n.
Proof.
  induction n as [| n IH]; intros Hf; simpl; [lra |].
  specialize (IH ltac:(auto)). specialize (Hf n ltac:(lia)). lra.
Qed.

Lemma jnp_sum_map_seq (f : nat -> R) (n : nat) :
  jnp_sum (map f (seq 0 n)) = big_sum f n.
Proof.
  induction n as [| n IH]; [reflexivity |].
  rewrite seq_S, map_app, jnp_sum_app, IH. simpl.
  rewrite jnp_sum_cons, jnp_sum_nil. lra.
Qed.

Lemma jnp_sum_map_nth {X : Type} (f : X -> R) (l : list X) (d : X) :
  jnp_sum (map f l) = big_sum (fun i => f (nth i l d)) (length l).
Proof.
  induction l as [| a l IH]; [reflexivity |].
  cbn [map length]. rewrite jnp_sum_cons, big_sum_shift, IH. reflexivity.
Qed.

Lemma jnp_sum_map_ext {X : Type} (f g : X -> R) (l : list X) :
  (forall a, In a l -> f a = g a) ->
  jnp_sum (map f l) = jnp_sum (map g l).
Proof.
  intros E. f_equal. apply map_ext_in. exact E.
Qed.

Lemma jnp_sum_filter {X : Type} (p : X -> bool) (g : X -> R) (l : list X) :
  jnp_sum (map g (filter p l))
  = jnp_sum (map (fun a => if p a then g a else 0) l).
Proof.
  induction l as [| a l IH]; simpl; [reflexivity |].
  destruct (p a); simpl; rewrite !jnp_sum_cons, IH; lra.
Qed.

Lemma jnp_sum_list_prod {X Y : Type} (g : X * Y -> R)
      (l : list X) (m : list Y) :
  jnp_sum (map g (list_prod l m))
  = jnp_sum (map (fun a => jnp_sum (map (fun b => g (a, b)) m)) l).
Proof.
  induction l as [| a l IH]; simpl; [reflexivity |].
  rewrite map_app, jnp_sum_app, jnp_sum_cons, IH, map_map. reflexivity.
Qed.

Lemma jnp_sum_concat (f : R -> R) (x : mat R) :
  jnp_sum (map f (concat x)) = jnp_sum (map (fun r => jnp_sum (map f r)) x).
Proof.
  induction x as [| r x IH]; simpl; [reflexivity |].
  rewrite map_app, jnp_sum_app, jnp_sum_cons, IH. reflexivity.
Qed.

Lemma sum_square_diff (a b : list R) :
  length a = length b ->
  jnp_sum (square (zip_with ssub a b))
  = big_sum (fun d => (nth d a 0 - nth d b 0) * (nth d a 0 - nth d b 0))
            (length a).
Proof.
  revert b. induction a as [| u a IH]; intros [| v b] E; try discriminate;
    [reflexivity |].
  cbn [zip_with square map length]. fold (square (zip_with ssub a b)).
  rewrite jnp_sum_cons, big_sum_shift, IH by (simpl in E; lia).
  scalar. reflexivity.
Qed.

(** The 2-norm of a row difference is the Euclidean distance. *)
Lemma norm_distance (x : mat R) (n dim i j : nat) :
  shape x n dim -> (i < n)%nat -> (j < n)%nat ->
  norm (zip_with ssub (nth i x []) (nth j x [])) = distance x dim i j.
Proof.
  intros [Hn Hrows] Hi Hj.
  rewrite Forall_forall in Hrows.
  assert (Li : length (nth i x []) = dim)
    by (apply Hrows, nth_In; lia).
  assert (Lj : length (nth j x []) = dim)
    by (apply Hrows, nth_In; lia).
  unfold norm, distance, coord. scalar.
  rewrite sum_square_diff, Li by lia. reflexivity.
Qed.

Lemma confinement_sum (x : mat R) (n dim : nat) :
  shape x n dim ->
  jnp_sum (square (concat x)) = confinement x n dim.
Proof.
  intros [Hn Hrows]. unfold square, confinement.
  rewrite jnp_sum_concat, (jnp_sum_map_nth _ x []), Hn.
  apply big_sum_ext. intros i Hi.
  rewrite Forall_forall in Hrows.
  rewrite (jnp_sum_map_nth _ _ 0), (Hrows (nth i x [])) by (apply nth_In; lia).
  reflexivity.
Qed.

Lemma interaction_sum (x : mat R) (n dim : nat) :
  shape x n dim ->
  jnp_sum (map (fun r => sdiv s1 r)
             (map (fun p => norm (zip_with ssub (nth (fst p) x [])
                                                (nth (snd p) x [])))
                  (triu_indices n 1)))
  = interaction x n dim.
Proof.
  intros Hs. unfold triu_indices, interaction.
  rewrite map_map, jnp_sum_filter, jnp_sum_list_prod, jnp_sum_map_seq.
  apply big_sum_ext. intros i Hi.
  rewrite jnp_sum_map_seq. apply big_sum_ext. intros j Hj.
  cbn [fst snd]. replace (i + 1 <=? j)%nat with (i <? j)%nat
    by (unfold Nat.ltb; f_equal; lia).
  destruct (i <? j)%nat; [| reflexivity].
  rewrite (norm_distance x n dim i j Hs Hi Hj). scalar. reflexivity.
Qed.

(** On a well-shaped configuration the evaluator returns the Hamiltonian. *)
Lemma energy_fn_hamiltonian (x : mat R) (n dim : nat) :
  shape x n dim ->
  energy_fn x n dim = Some (confinement x n dim + interaction x n dim).
Proof.
  intros Hs. unfold energy_fn.
  destruct Hs as [Hn Hrows].
  rewrite (reshape_concat n dim x Hn Hrows). cbv zeta.
  rewrite (confinement_sum x n dim), (interaction_sum x n dim)
    by (split; assumption).
  reflexivity.
Qed.

End RealSums.

(** ** The terms of [energy_fn], in any arithmetic *)

Section EnergyTerms.
Context {A : Type} `{Scalar A}.


End EnergyTerms.

(** ** EnergyModel over the reals *)

Section EnergySymmetry.
Import Hamiltonian.
Local Open Scope R_scope.


Lemma square_diff_sym (a b : list R) :
  jnp_sum (square (zip_with ssub a b)) = jnp_sum (square (zip_with ssub b a)).
Proof.
  revert b. induction a as [| u a IH]; intros [| v b]; try reflexivity.
  cbn [zip_with square map].
  fold (square (zip_with ssub a b)). fold (square (zip_with ssub b a)).
  rewrite !jnp_sum_cons, IH. scalar. ring.
Qed.

Lemma coulomb_sym (a b : list R) : coulomb a b = coulomb b a.
Proof. unfold coulomb, norm. now rewrite square_diff_sym. Qed.

Lemma jnp_sum_perm (l m : list R) :
  Permutation l m -> jnp_sum l = jnp_sum m.
Proof.
  induction 1 as [| a l m _ IH | a b l | l m k _ IH1 _ IH2].
  - reflexivity.
  - now rewrite !jnp_sum_cons, IH.
  - rewrite !jnp_sum_cons. lra.
  - now rewrite IH1.
Qed.

Lemma pair_sum_perm (g : list R -> list R -> R) (x y : mat R) :
  (forall a b, g a b = g b a) ->
  Permutation x y -> pair_sum g x = pair_sum g y.
Proof.
  intros Hg. induction 1 as [| a l m Hp IH | a b l | l m k _ IH1 _ IH2].
  - reflexivity.
  - simpl. rewrite IH. f_equal.
    apply jnp_sum_perm, Permutation_map, Hp.
  - simpl. rewrite !jnp_sum_cons, (Hg a b). lra.
  - now rewrite IH1.
Qed.

(** The double index sum over [i < j] visits the same pairs as the
    recursion on the list. *)
Lemma index_pairs_struct (g : list R -> list R -> R) (x : mat R) :
  big_sum (fun i =>
    big_sum (fun j => if (i <? j)%nat
                      then g (nth i x []) (nth j x []) else 0)
            (length x)) (length x)
  = pair_sum g x.
Proof.
  induction x as [| a l IH]; [reflexivity |].
  cbn [length pair_sum]. rewrite big_sum_shift. f_equal.
  - rewrite big_sum_shift. cbn [Nat.ltb Nat.leb nth].
    rewrite (jnp_sum_map_nth (g a) l []). lra.
  - rewrite <- IH. apply big_sum_ext. intros i Hi.
    rewrite big_sum_shift. cbn [Nat.ltb Nat.leb nth].
    rewrite Rplus_0_l. reflexivity.
Qed.

Lemma triu_sum_struct (g : list R -> list R -> R) (x : mat R) :
  jnp_sum (map (fun p => g (nth (fst p) x []) (nth (snd p) x []))
               (triu_indices (length x) 1))
  = pair_sum g x.
Proof.
  rewrite <- index_pairs_struct. unfold triu_indices.
  rewrite jnp_sum_filter, jnp_sum_list_prod, jnp_sum_map_seq.
  apply big_sum_ext. intros i Hi.
  rewrite jnp_sum_map_seq. apply big_sum_ext. intros j Hj.
  cbn [fst snd]. replace (i + 1 <=? j)%nat with (i <? j)%nat
    by (unfold Nat.ltb; f_equal; lia).
  reflexivity.
Qed.

Lemma energy_fn_struct (x : mat R) (n dim : nat) :
  shape x n dim ->
  energy_fn x n dim
  = Some (jnp_sum (map (fun r => jnp_sum (square r)) x)
          + pair_sum coulomb x).
Proof.
  intros [Hn Hrows]. unfold energy_fn.
  rewrite (reshape_concat n dim x Hn Hrows). cbv zeta.
  rewrite map_map. subst n.
  change (fun p : nat * nat =>
            sdiv s1 (norm (zip_with ssub (nth (fst p) x [])
                                         (nth (snd p) x []))))
    with (fun p : nat * nat => coulomb (nth (fst p) x []) (nth (snd p) x [])).
  rewrite (triu_sum_struct coulomb x).
  unfold square at 1. rewrite jnp_sum_concat. reflexivity.
Qed.

Lemma shape_perm (x y : mat R) (n dim : nat) :
  Permutation x y -> shape x n dim -> shape y n dim.
Proof.
  intros Hp [Hn Hrows]. split.
  - now rewrite <- (Permutation_length Hp).
  - now rewrite <- Hp.
Qed.

Lemma energy_fn_perm (x y : mat R) (n dim : nat) :
  shape x n dim -> Permutation x y ->
  energy_fn y n dim = energy_fn x n dim.
Proof.
  intros Hs Hp.
  rewrite (energy_fn_struct x n dim Hs).
  rewrite (energy_fn_struct y n dim (shape_perm x y n dim Hp Hs)).
  rewrite (pair_sum_perm coulomb x y coulomb_sym Hp).
  rewrite (jnp_sum_perm _ _ (Permutation_map _ Hp)). reflexivity.
Qed.

End EnergySymmetry.

Section EnergyProperties.
Import Hamiltonian.
Local Open Scope R_scope.

Lemma sqrt_of_one (a : R) : a = 1 -> sqrt a = 1.
Proof. intros ->. apply sqrt_1. Qed.

(** The two-particle line configuration used in the examples. *)
Lemma pair01_shape : shape (A := R) [[0]; [1]] 2 1.
Proof. split; [reflexivity | repeat constructor]. Qed.

Lemma pair01_distance :
  forall i j : nat, (i < j < 2)%nat -> distance [[0]; [1]] 1 i j <> 0.
Proof.
  intros i j Hij. assert (i = 0%nat /\ j = 1%nat) as [-> ->] by lia.
  unfold distance, coord. cbn [big_sum nth].
  rewrite sqrt_of_one by lra. lra.
Qed.

Lemma pair01_NoDup : NoDup (A := list R) [[0]; [1]].
Proof.
  constructor; [| constructor; [intros [] | constructor]].
  intros [E | []]. injection E. lra.
Qed.

(** The three-particle line configuration used in the examples. *)
Lemma line012_shape : shape (A := R) [[0]; [1]; [2]] 3 1.
Proof. split; [reflexivity | repeat constructor]. Qed.




Lemma energy_pair01 : energy_fn (A := R) [[0]; [1]] 2 1 = Some 2.
Proof.
  rewrite (energy_fn_hamiltonian _ 2 1 pair01_shape). f_equal.
  unfold confinement, interaction, distance, coord.
  cbn [big_sum nth Nat.ltb Nat.leb].
  rewrite sqrt_of_one by lra. lra.
Qed.

Lemma energy_pair12 :
  energy_fn (A := R) (translate [1] [[0]; [1]]) 2 1 = Some (1 + 1 + (1 + 1) * (1 + 1)).
Proof.
  assert (Hs : shape (A := R) (translate [1] [[0]; [1]]) 2 1)
    by (split; [reflexivity | repeat constructor]).
  rewrite (energy_fn_hamiltonian _ 2 1 Hs). f_equal.
  unfold confinement, interaction, distance, coord, translate.
  cbn [big_sum nth Nat.ltb Nat.leb map zip_with].
  rewrite sqrt_of_one by lra. lra.
Qed.

Lemma line012_NoDup : NoDup (A := list R) [[0]; [1]; [2]].
Proof.
  repeat constructor; simpl; intros H; decompose [or] H; try contradiction;
    match goal with E : _ = _ |- _ => injection E; lra end.
Qed.

(** C7, as amended.  In exact arithmetic [energy_fn] takes the same value
    on every reordering of the rows of a configuration with distinct
    particle positions.  It is not invariant under translation: adding one
    nonzero vector to every particle of some configuration changes the
    value, in exact arithmetic and in binary64 alike. *)
Theorem energy_fn_symmetry :
  (forall (x y : mat R) (n dim : nat),
      shape x n dim -> NoDup x -> Permutation x y ->
      energy_fn y n dim = energy_fn x n dim
      /\ exists e, energy_fn x n dim = Some e)
  /\ (exists (x : mat R) (t : list R) (n dim : nat),
        shape x n dim /\ NoDup x /\ length t = dim /\ t <> repeat 0 dim
        /\ energy_fn (translate t x) n dim <> energy_fn x n dim)
  /\ energy_fn (map (fun r => zip_with PrimFloat.add r [1%float])
                    [[0%float]; [1%float]]) 2 1
     <> energy_fn [[0%float]; [1%float]] 2 1.
Proof.
  split; [| split].
  - intros x y n dim Hs _ Hp. split.
    + apply energy_fn_perm; assumption.
    + eexists. apply energy_fn_hamiltonian, Hs.
  - exists [[0]; [1]], [1], 2%nat, 1%nat.
    split; [exact pair01_shape |].
    split; [exact pair01_NoDup |].
    split; [reflexivity |].
    split.
    + simpl. intros E. injection E. lra.
    + rewrite energy_pair12, energy_pair01. intros E. injection E. lra.
  - intros E.
    apply (f_equal (fun o => match o with
                             | Some v => Prim2SF v
                             | None => S754_nan
                             end)) in E.
    vm_compute in E. discriminate E.
Qed.

Lemma energy_fn_symmetry_witness :
  energy_fn (A := R) [[2]; [0]; [1]] 3 1 = energy_fn [[0]; [1]; [2]] 3 1
  /\ exists e, energy_fn (A := R) [[0]; [1]; [2]] 3 1 = Some e.
Proof.
  apply (proj1 energy_fn_symmetry [[0]; [1]; [2]] [[2]; [0]; [1]] 3%nat 1%nat).
  - exact line012_shape.
  - exact line012_NoDup.
  - apply Permutation_sym. exact (Permutation_cons_append [[0]; [1]] [2]).
Defined.

(** C7 as the specification words it fails in binary64: exchanging the
    first two of three particles on a line changes the order in which the
    three reciprocal distances are added, and the last place of the
    result. *)
Lemma energy_fn_row_order_binary64 :
  let x := [[0%float]; [0.75%float]; [1.75%float]] in
  let y := [[0.75%float]; [0%float]; [1.75%float]] in
  shape x 3 1 /\ NoDup x /\ Permutation x y
  /\ energy_fn x 3 1 = Some 6.529761904761905%float
  /\ energy_fn y 3 1 = Some 6.529761904761904%float
  /\ energy_fn y 3 1 <> energy_fn x 3 1.
Proof.
  cbv zeta.
  split; [split; [reflexivity | repeat constructor] |].
  split.
  { repeat constructor; simpl; intros H; decompose [or] H;
      try contradiction;
      match goal with
      | E : _ = _ |- _ =>
          apply (f_equal (fun r => Prim2SF (hd 0%float r))) in E;
          vm_compute in E; discriminate E
      end. }
  split; [apply perm_swap |].
  split; [vm_compute; reflexivity |].
  split; [vm_compute; reflexivity |].
  intros E.
  apply (f_equal (fun o => match o with
                           | Some v => Prim2SF v
                           | None => S754_nan
                           end)) in E.
  vm_compute in E. discriminate E.
Qed.

End EnergyProperties.

(** ** Batching *)

Lemma vmap_total {X Y : Type} (f : X -> option Y) (l : list X) :
  (forall a, In a l -> exists b, f a = Some b) ->
  exists r, vmap f l = Some r /\ length r = length l.
Proof.
  induction l as [| a l IH]; intros Hf; simpl.
  - exists []. split; reflexivity.
  - destruct (Hf a (or_introl eq_refl)) as [b ->].
    destruct IH as (r & -> & Hr); [intros c Hc; apply Hf; now right |].
    exists (b :: r). simpl. now rewrite Hr.
Qed.

Lemma vmap_nth {X Y : Type} (f : X -> option Y) (l : list X) (r : list Y) :
  vmap f l = Some r ->
  forall i a, nth_error l i = Some a ->
              exists b, nth_error r i = Some b /\ f a = Some b.
Proof.
  revert r. induction l as [| a0 l IH]; intros r Hv i a Hi.
  - destruct i; discriminate.
  - simpl in Hv. destruct (f a0) as [b0 |] eqn:E0; [| discriminate].
    destruct (vmap f l) as [r' |]; [| discriminate].
    injection Hv as <-. destruct i as [| i]; simpl in *.
    + injection Hi as <-. now exists b0.
    + now apply IH.
Qed.

Lemma zip_with_length {X Y Z : Type} (f : X -> Y -> Z) (l : list X) (m : list Y) :
  length l = length m -> length (zip_with f l m) = length l.
Proof.
  revert m. induction l as [| a l IH]; intros [| b m] E; try discriminate;
    [reflexivity |].
  simpl. f_equal. apply IH. now injection E.
Qed.

Section EnergyTotal.
Context {A : Type} `{Scalar A}.

(** No exception on a configuration of the declared shape. *)
Lemma energy_fn_total (x : mat A) (n dim : nat) :
  shape x n dim -> exists e, energy_fn x n dim = Some e.
Proof.
  intros [Hn Hrows]. unfold energy_fn.
  rewrite (reshape_concat n dim x Hn Hrows). eexists. reflexivity.
Qed.

Lemma batch_energy_total (x : list (mat A)) (n dim : nat) :
  (forall xb, In xb x -> shape xb n dim) ->
  exists e, batch_energy x n dim = Some e /\ length e = length x.
Proof.
  intros Hs. apply vmap_total. intros xb Hin.
  apply energy_fn_total, Hs, Hin.
Qed.
End EnergyTotal.

(** ** ChangeOfVariablesDensity *)

Section DensityProperties.
Context {A : Type} `{Scalar A}.
Local Open Scope scalar_scope.

Variable params : Type.
Variable flow_apply : params -> mat A -> mat A.
Variable norm_logpdf : A -> A.
Variable jacfwd : (list A -> list A) -> list A -> mat A.
Variable slogdet : mat A -> A * A.

Local Abbreviation logp_novmap :=
  (Flow.logp_novmap flow_apply norm_logpdf jacfwd slogdet).

(** C2. For every latent sample [z] and parameters [p], [logp] returns
    [(logpx, logqz, logjacdet, x)] where [x] is the image of [z] under the
    map, [logqz] is the sum over all coordinates of [z] of the
    standard-normal log-density, [logjacdet] is the log-magnitude
    component that [slogdet] reports for the Jacobian, at the flattened
    [z], of the flattened map, and [logpx] is exactly
    [logqz - logjacdet], in whichever arithmetic the code runs. *)
Theorem logp_density_report (z : mat A) (p : params) :
  let n := length z in
  let dim := length (hd [] z) in
  let flow_flatten := fun zf => concat (flow_apply p (chunks dim n zf)) in
  let logqz := jnp_sum (map norm_logpdf (concat z)) in
  let logjacdet := snd (slogdet (jacfwd flow_flatten (concat z))) in
  logp_novmap z p = (logqz - logjacdet, logqz, logjacdet, flow_apply p z)
  /\ (fst (fst (fst (logp_novmap z p)))
      = snd (fst (fst (logp_novmap z p))) - snd (fst (logp_novmap z p))).
Proof.
  cbv zeta. unfold Flow.logp_novmap, Flow.shape2.
  destruct (slogdet _) as [sign logjacdet]. split; reflexivity.
Qed.

Lemma logp_novmap_identity (z : mat A) (p : params) :
  fst (fst (fst (logp_novmap z p)))
  = snd (fst (fst (logp_novmap z p))) - snd (fst (logp_novmap z p)).
Proof.
  unfold Flow.logp_novmap, Flow.shape2.
  destruct (slogdet _) as [sign logjacdet]. reflexivity.
Qed.

Lemma logp_novmap_x (z : mat A) (p : params) :
  snd (logp_novmap z p) = flow_apply p z.
Proof.
  unfold Flow.logp_novmap, Flow.shape2.
  destruct (slogdet _) as [sign logjacdet]. reflexivity.
Qed.

End DensityProperties.

(** ** VariationalEstimator, in any arithmetic *)

Section EstimatorForm.
Context {A : Type} `{Scalar A}.
Local Open Scope scalar_scope.

Variable params : Type.
Variable flow_apply : params -> mat A -> mat A.
Variable norm_logpdf : A -> A.
Variable jacfwd : (list A -> list A) -> list A -> mat A.
Variable slogdet : mat A -> A * A.

(** One evaluation of [logp] and one of [batch_energy] give the objective
    and every reported statistic. *)
Lemma observable_and_lossfn_form
      (batch n dim : nat) (beta : A) (p : params) (z : list (mat A)) :
  (forall zb, In zb z -> shape (flow_apply p zb) n dim) ->
  exists Eloc,
    batch_energy (snd (Flow.logp flow_apply norm_logpdf jacfwd slogdet z p))
                 n dim = Some Eloc
    /\ length Eloc = length z
    /\ Flow.observable_and_lossfn flow_apply norm_logpdf jacfwd slogdet
                                  batch n dim beta p z
       = let '(logpx, _, logjacdet, x) :=
           Flow.logp flow_apply norm_logpdf jacfwd slogdet z p in
         let Floc := zip_with (fun l e => l / beta + e) logpx Eloc in
         Some (jnp_mean (zip_with (fun j e => (- j) / beta + e)
                                  logjacdet Eloc),
               {| Flow.F_mean := jnp_mean Floc;
                  Flow.F_std := jnp_std Floc / ssqrt (of_int batch);
                  Flow.E_mean := jnp_mean Eloc;
                  Flow.E_std := jnp_std Eloc / ssqrt (of_int batch);
                  Flow.S_mean := - jnp_mean logpx;
                  Flow.S_std := jnp_std (map sopp logpx)
                                / ssqrt (of_int batch);
                  Flow.x_out := x |}).
Proof.
  intros Hshape.
  destruct (batch_energy_total
              (snd (Flow.logp flow_apply norm_logpdf jacfwd slogdet z p))
              n dim) as (Eloc & HE & HL).
  { unfold Flow.logp. cbn [snd]. intros xb Hin.
    rewrite map_map in Hin. apply in_map_iff in Hin as (zb & <- & Hzb).
    rewrite logp_novmap_x. apply Hshape, Hzb. }
  exists Eloc. split; [exact HE |]. split.
  { rewrite HL. unfold Flow.logp. cbn [snd]. now rewrite !length_map. }
  unfold Flow.observable_and_lossfn, Flow.make_loss.
  unfold Flow.logp in *. cbn [snd] in HE. rewrite HE. reflexivity.
Qed.

End EstimatorForm.

(** ** VariationalEstimator over the reals *)

Section EstimatorProperties.
Import Hamiltonian Statistics.
Local Open Scope R_scope.

Variable params : Type.
Variable flow_apply : params -> mat R -> mat R.
Variable norm_logpdf : R -> R.
Variable jacfwd : (list R -> list R) -> list R -> mat R.
Variable slogdet : mat R -> R * R.

Local Abbreviation logp_novmap :=
  (Flow.logp_novmap flow_apply norm_logpdf jacfwd slogdet).
Local Abbreviation logp :=
  (Flow.logp flow_apply norm_logpdf jacfwd slogdet).
Local Abbreviation observable_and_lossfn :=
  (Flow.observable_and_lossfn flow_apply norm_logpdf jacfwd slogdet).


Lemma jnp_mean_sample_mean (v : list R) : jnp_mean v = sample_mean v.
Proof.
  unfold jnp_mean, sample_mean. scalar.
  rewrite <- (map_id v) at 1. rewrite (jnp_sum_map_nth (fun a => a) v 0).
  reflexivity.
Qed.




(** The per-sample objectives differ by [logqz / beta]; so do their sums. *)
Lemma sum_reparam (beta : R) (r : list (R * R * R * mat R)) (E : list R) :
  (forall t, In t r ->
     fst (fst (fst t)) = snd (fst (fst t)) - snd (fst t)) ->
  length E = length r ->
  jnp_sum (zip_with (fun l e => l / beta + e)
             (map (fun t => fst (fst (fst t))) r) E)
  = jnp_sum (zip_with (fun j e => - j / beta + e)
               (map (fun t => snd (fst t)) r) E)
    + jnp_sum (map (fun q => q / beta)
                 (map (fun t => snd (fst (fst t))) r)).
Proof.
  revert E. induction r as [| t r IH]; intros [| e E] Hid Hlen;
    try discriminate; cbn [map zip_with].
  { rewrite !jnp_sum_nil. lra. }
  rewrite !jnp_sum_cons.
  rewrite IH; [| intros u Hu; apply Hid; now right | now injection Hlen].
  rewrite (Hid t (or_introl eq_refl)). scalar. unfold Rdiv. ring.
Qed.

(** What [observable_and_lossfn] returns, spelled out. *)
Lemma observable_and_lossfn_eval
      (batch n dim : nat) (beta : R) (p : params) (z : list (mat R)) :
  (forall zb, In zb z -> shape (flow_apply p zb) n dim) ->
  exists Eloc,
    batch_energy (snd (logp z p)) n dim = Some Eloc
    /\ length Eloc = length z
    /\ observable_and_lossfn batch n dim beta p z
       = let '(logpx, _, logjacdet, x) := logp z p in
         let Floc := zip_with (fun l e => l / beta + e) logpx Eloc in
         Some (jnp_mean (zip_with (fun j e => - j / beta + e) logjacdet Eloc),
               {| Flow.F_mean := jnp_mean Floc;
                  Flow.F_std := jnp_std Floc / sqrt (INR batch);
                  Flow.E_mean := jnp_mean Eloc;
                  Flow.E_std := jnp_std Eloc / sqrt (INR batch);
                  Flow.S_mean := - jnp_mean logpx;
                  Flow.S_std := jnp_std (map Ropp logpx) / sqrt (INR batch);
                  Flow.x_out := x |}).
Proof.
  intros Hshape.
  destruct (batch_energy_total (snd (logp z p)) n dim) as (Eloc & HE & HL).
  { unfold Flow.logp. cbn [snd]. intros xb Hin.
    rewrite map_map in Hin. apply in_map_iff in Hin as (zb & <- & Hzb).
    rewrite logp_novmap_x. apply Hshape, Hzb. }
  exists Eloc. split; [exact HE |]. split.
  { rewrite HL. unfold Flow.logp. cbn [snd]. now rewrite !length_map. }
  unfold Flow.observable_and_lossfn, Flow.make_loss.
  unfold Flow.logp in *. cbn [snd] in HE. rewrite HE. reflexivity.
Qed.

(** The Jacobian that [logp] takes is square when the latent sample and
    its image both have the declared shape. *)
Lemma jacobian_square (n dim : nat) (p : params) (z : list (mat R)) :
  (forall zb, In zb z -> shape zb n dim) ->
  (forall zb, In zb z -> shape (flow_apply p zb) n dim) ->
  Forall (fun zb => length (concat zb) = (n * dim)%nat
                    /\ length (concat (flow_apply p zb)) = (n * dim)%nat) z.
Proof.
  intros Hz Hx. apply Forall_forall. intros zb Hin.
  destruct (Hz zb Hin) as [Hn Hrows]. destruct (Hx zb Hin) as [Hn' Hrows'].
  rewrite (length_concat_rows dim _ Hrows), (length_concat_rows dim _ Hrows').
  now rewrite Hn, Hn'.
Qed.

(** C4, as amended.  For every parameters and latent batch of the declared
    shape whose images under the map have the declared shape (so that the
    Jacobian is square), one evaluation of [logp] and one of
    [batch_energy] give both outputs of [observable_and_lossfn]: the
    differentiated objective is the batch mean of [-logjacdet / beta + Eloc]
    and the reported free energy is the batch mean of
    [F_loc = logpx / beta + Eloc], in whichever arithmetic the code runs.
    In exact arithmetic the two differ by the batch mean of
    [logqz / beta]. *)
Theorem objective_reduced_form
        (batch n dim : nat) (beta : R) (p : params) (z : list (mat R)) :
  (forall zb, In zb z -> shape zb n dim) ->
  (forall zb, In zb z -> shape (flow_apply p zb) n dim) ->
  (exists Eloc obs,
      let '(logpx, logqz, logjacdet, x) := logp z p in
      let objective :=
        sample_mean (zip_with (fun j e => - j / beta + e) logjacdet Eloc) in
      batch_energy x n dim = Some Eloc
      /\ observable_and_lossfn batch n dim beta p z = Some (objective, obs)
      /\ Flow.F_mean obs
         = sample_mean (zip_with (fun l e => l / beta + e) logpx Eloc)
      /\ Flow.E_mean obs = sample_mean Eloc
      /\ Flow.x_out obs = x
      /\ Flow.F_mean obs
         = objective + sample_mean (map (fun q => q / beta) logqz))
  /\ Forall (fun zb => length (concat zb) = (n * dim)%nat
                       /\ length (concat (flow_apply p zb)) = (n * dim)%nat) z
  /\ (forall (A : Type) (SA : Scalar A) (P : Type)
             (fa : P -> mat A -> mat A) (nl : A -> A)
             (jf : (list A -> list A) -> list A -> mat A)
             (sd : mat A -> A * A) (b : A) (q : P) (w : list (mat A)),
        (forall zb, In zb w -> shape zb n dim) ->
        (forall zb, In zb w -> shape (fa q zb) n dim) ->
        exists Eloc obs,
          let '(logpx, _, logjacdet, x) := Flow.logp fa nl jf sd w q in
          batch_energy x n dim = Some Eloc
          /\ Flow.observable_and_lossfn fa nl jf sd batch n dim b q w
             = Some (jnp_mean (zip_with (fun j e => sadd (sdiv (sopp j) b) e)
                                        logjacdet Eloc), obs)
          /\ Flow.F_mean obs
             = jnp_mean (zip_with (fun l e => sadd (sdiv l b) e) logpx Eloc)
          /\ Flow.E_mean obs = jnp_mean Eloc
          /\ Flow.x_out obs = x).
Proof.
  intros Hz Hshape. split; [| split].
  - destruct (observable_and_lossfn_eval batch n dim beta p z Hshape)
      as (Eloc & HE & HL & Hval).
    exists Eloc. unfold Flow.logp in *. cbn [snd] in HE.
    set (r := map (fun zb => logp_novmap zb p) z) in *.
    eexists. rewrite <- !jnp_mean_sample_mean.
    split; [exact HE |]. split; [exact Hval |].
    cbn [Flow.F_mean Flow.E_mean Flow.x_out].
    split; [reflexivity |]. split; [reflexivity |]. split; [reflexivity |].
    assert (Lr : length r = length z) by (unfold r; apply length_map).
    unfold jnp_mean.
    rewrite !zip_with_length, !length_map by (rewrite !length_map; lia).
    rewrite (sum_reparam beta r Eloc).
    + scalar. unfold Rdiv. ring.
    + intros t Hin. unfold r in Hin.
      apply in_map_iff in Hin as (zb & <- & _).
      exact (logp_novmap_identity params flow_apply norm_logpdf jacfwd
                                  slogdet zb p).
    + lia.
  - apply jacobian_square; assumption.
  - intros A SA P fa nl jf sd b q w _ Hw.
    destruct (observable_and_lossfn_form P fa nl jf sd batch n dim b q w Hw)
      as (Eloc & HE & _ & Hval).
    exists Eloc. unfold Flow.logp in *. cbn [snd] in HE.
    eexists. split; [exact HE |]. split; [exact Hval |].
    cbn [Flow.F_mean Flow.E_mean Flow.x_out].
    split; [reflexivity |]. split; reflexivity.
Qed.


End EstimatorProperties.

Section EstimatorExamples.
Import Hamiltonian Statistics.
Local Open Scope R_scope.

Lemma sample_flow_shape :
  forall zb, In zb Sample.z -> shape (Sample.flow_apply tt zb) 2 1.
Proof. intros zb [<- | []]. exact pair01_shape. Qed.

Lemma z2_shape : forall zb, In zb Sample.z2 -> shape zb 2 1.
Proof.
  intros zb [<- | [<- | []]]; (split; [reflexivity | repeat constructor]).
Qed.

Lemma z2_double_shape :
  forall zb, In zb Sample.z2 -> shape (Sample.double_flow tt zb) 2 1.
Proof.
  intros zb [<- | [<- | []]]; (split; [reflexivity | repeat constructor]).
Qed.


(** Two samples under the doubling map, whose log-determinant is
    [2 ln 2]. *)
Lemma objective_reduced_form_witness :
  exists Eloc obs,
    let '(logpx, logqz, logjacdet, x) :=
      Flow.logp Sample.double_flow Sample.norm_logpdf Sample.jacfwd_linear
                Sample.slogdet_diagonal Sample.z2 tt in
    let objective :=
      sample_mean (zip_with (fun j e => - j / 10 + e) logjacdet Eloc) in
    batch_energy x 2 1 = Some Eloc
    /\ Flow.observable_and_lossfn Sample.double_flow Sample.norm_logpdf
         Sample.jacfwd_linear Sample.slogdet_diagonal 2 2 1 10 tt Sample.z2
       = Some (objective, obs)
    /\ Flow.F_mean obs
       = sample_mean (zip_with (fun l e => l / 10 + e) logpx Eloc)
    /\ Flow.E_mean obs = sample_mean Eloc
    /\ Flow.x_out obs = x
    /\ Flow.F_mean obs
       = objective + sample_mean (map (fun q => q / 10) logqz).
Proof.
  apply (objective_reduced_form unit Sample.double_flow Sample.norm_logpdf
           Sample.jacfwd_linear Sample.slogdet_diagonal 2 2 1 10 tt
           Sample.z2).
  - exact z2_shape.
  - exact z2_double_shape.
Defined.

(** The identity in C4 is one of exact arithmetic: in binary64, on two
    samples of two particles under the identity map with [beta = 10], the
    reported mean free energy and the objective plus the mean of
    [logqz / beta] differ in the last place. *)
Lemma objective_reduced_form_binary64 :
  exists objective obs logqz,
    Flow.observable_and_lossfn SampleFloat.flow_apply SampleFloat.norm_logpdf
      SampleFloat.jacfwd SampleFloat.slogdet 2 2 1 10%float tt SampleFloat.z
    = Some (objective, obs)
    /\ snd (fst (fst (Flow.logp SampleFloat.flow_apply SampleFloat.norm_logpdf
                                SampleFloat.jacfwd SampleFloat.slogdet
                                SampleFloat.z tt))) = logqz
    /\ Flow.F_mean obs = 5.791212293359065%float
    /\ PrimFloat.add objective
                     (jnp_mean (map (fun q => PrimFloat.div q 10%float) logqz))
       = 5.791212293359066%float
    /\ Flow.F_mean obs
       <> PrimFloat.add objective
            (jnp_mean (map (fun q => PrimFloat.div q 10%float) logqz)).
Proof.
  do 3 eexists.
  split; [vm_compute; reflexivity |].
  split; [vm_compute; reflexivity |].
  split; [vm_compute; reflexivity |].
  split; [vm_compute; reflexivity |].
  intros E. apply (f_equal Prim2SF) in E. vm_compute in E. discriminate E.
Qed.








End EstimatorExamples.

(** ** MCMCSampler: one Metropolis step, chain by chain *)

Lemma chunks_length {X : Type} (k n : nat) (l : list X) :
  length (chunks k n l) = n.
Proof.
  revert l. induction n as [| n IH]; intros l; simpl; [reflexivity |].
  now rewrite IH.
Qed.

Lemma chunks_rows {X : Type} (k n : nat) (l : list X) :
  length l = n * k -> Forall (fun r => length r = k) (chunks k n l).
Proof.
  revert l. induction n as [| n IH]; intros l Hl; simpl; constructor.
  - rewrite length_firstn. simpl in Hl. lia.
  - apply IH. rewrite length_skipn. simpl in Hl. lia.
Qed.

Lemma nth_zip_with {X Y Z : Type} (f : X -> Y -> Z) (l : list X) (m : list Y)
      (c : nat) (dx : X) (dy : Y) (dz : Z) :
  c < length l -> c < length m ->
  nth c (zip_with f l m) dz = f (nth c l dx) (nth c m dy).
Proof.
  revert m c. induction l as [| a l IH]; intros [| b m] c Hl Hm;
    simpl in *; try lia.
  destruct c as [| c]; [reflexivity |]. apply IH; lia.
Qed.

Lemma where_length {X : Type} (c : list bool) (a b : list X) :
  length a = length c -> length b = length c ->
  length (Mcmc.where_ c a b) = length c.
Proof.
  revert a b. induction c as [| cb c IH]; intros [| ab a] [| bb b] Ha Hb;
    simpl in *; try lia.
  f_equal. apply IH; lia.
Qed.

Lemma nth_where {X : Type} (c : list bool) (a b : list X) (i : nat) (d : X) :
  length a = length c -> length b = length c -> i < length c ->
  nth i (Mcmc.where_ c a b) d = if nth i c false then nth i a d else nth i b d.
Proof.
  revert a b i. induction c as [| cb c IH]; intros [| ab a] [| bb b] i Ha Hb Hi;
    simpl in *; try lia.
  destruct i as [| i]; [reflexivity |]. apply IH; lia.
Qed.

Lemma vmap_length {X Y : Type} (f : X -> option Y) (l : list X) (r : list Y) :
  vmap f l = Some r -> length r = length l.
Proof.
  revert r. induction l as [| a l IH]; intros r Hv; simpl in Hv.
  - now injection Hv as <-.
  - destruct (f a); [| discriminate].
    destruct (vmap f l) as [r' |]; [| discriminate].
    injection Hv as <-. simpl. f_equal. now apply IH.
Qed.

Lemma vmap_nth_default {X Y : Type} (f : X -> option Y) (l : list X)
      (r : list Y) (i : nat) (dx : X) (dy : Y) :
  vmap f l = Some r -> i < length l ->
  f (nth i l dx) = Some (nth i r dy).
Proof.
  intros Hv Hi.
  destruct (vmap_nth f l r Hv i (nth i l dx)) as (b & Hb & Hf).
  - now apply nth_error_nth'.
  - rewrite Hf. f_equal. symmetry. now apply nth_error_nth.
Qed.

Lemma vmap_In {X Y : Type} (f : X -> option Y) (l : list X) (r : list Y) :
  vmap f l = Some r ->
  forall a, In a l -> exists b, f a = Some b.
Proof.
  intros Hv a Hin. apply In_nth_error in Hin as [i Hi].
  destruct (vmap_nth f l r Hv i a Hi) as (b & _ & Hb). now exists b.
Qed.

Section RandomShapes.
Context {key A : Type} (rng : Random key A).

Lemma normal3_length (k : key) (b n dim : nat) :
  length (normal3 rng k b n dim) = b.
Proof. unfold normal3. now rewrite length_map, chunks_length. Qed.

Lemma uniform1_length (k : key) (b : nat) :
  length (uniform1 rng k b) = b.
Proof. unfold uniform1. now rewrite length_map, length_seq. Qed.

Lemma nth_uniform1 (k : key) (b c : nat) (d : A) :
  c < b -> nth c (uniform1 rng k b) d = uniform_flat rng k b c.
Proof.
  intros Hc. unfold uniform1.
  rewrite (nth_indep _ d (uniform_flat rng k b 0))
    by (now rewrite length_map, length_seq).
  now rewrite map_nth, seq_nth.
Qed.

Lemma chunks_chunks_rows {X : Type} (b m : nat) (l : list X) :
  length l = b * m ->
  forall piece, In piece (chunks m b l) -> length piece = m.
Proof.
  intros Hl piece Hin.
  pose proof (chunks_rows m b l Hl) as Hall.
  rewrite Forall_forall in Hall. now apply Hall.
Qed.

(** Every chain of the noise array has the requested [n x dim] shape. *)
Lemma normal3_shape (k : key) (b n dim : nat) :
  forall nb, In nb (normal3 rng k b n dim) -> shape nb n dim.
Proof.
  intros nb Hin. unfold normal3 in Hin.
  apply in_map_iff in Hin as (piece & <- & Hpiece).
  apply chunks_chunks_rows in Hpiece;
    [| rewrite length_map, length_seq; lia].
  split; [apply chunks_length |].
  apply chunks_rows. lia.
Qed.

End RandomShapes.

Section StepChains.
Context {A : Type} `{Scalar A}.
Local Open Scope scalar_scope.

Variable key : Type.
Variable rng : Random key A.
Variable exp : A -> A.
Variable target : mat A -> option A.

Lemma step_noise_length (x : list (mat A)) (k : key) :
  length (step_noise rng x k) = length x.
Proof. unfold step_noise, Mcmc.shape3. apply normal3_length. Qed.

Lemma step_proposal_length (w : A) (x : list (mat A)) (k : key) :
  length (step_proposal rng w x k) = length x.
Proof.
  unfold step_proposal. apply zip_with_length. now rewrite step_noise_length.
Qed.

Lemma step_accept_length (x : list (mat A)) (k : key) (lp logp : list A) :
  length lp = length x -> length logp = length x ->
  length (step_accept rng exp x k lp logp) = length x.
Proof.
  intros Hlp Hlogp. unfold step_accept, step_uniform.
  rewrite zip_with_length; rewrite uniform1_length; [reflexivity |].
  rewrite zip_with_length; lia.
Qed.

(** [step] on a batched target, spelled out. *)
Lemma step_eval (w : A) (i : nat) (x : list (mat A)) (logp : list A)
      (k : key) (na : A) (lp : list A) :
  length logp = length x ->
  vmap target (step_proposal rng w x k) = Some lp ->
  Mcmc.step rng exp (vmap target) w i (x, logp, k, na)
  = let accept := step_accept rng exp x k lp logp in
    Some (Mcmc.where_ accept (step_proposal rng w x k) x,
          Mcmc.where_ accept lp logp,
          split rng k 3 0,
          na + of_int (Mcmc.count_true accept)).
Proof.
  intros Hlogp Hlp.
  pose proof (vmap_length _ _ _ Hlp) as Llp.
  rewrite step_proposal_length in Llp.
  unfold Mcmc.step, step_proposal, step_noise in *.
  destruct (Mcmc.shape3 x) as [[b n] dim] eqn:Hsh.
  change (zip_with (zip_with (zip_with (fun a e : A => a + w * e))))
    with (zip_with (Chain.propose w)).
  rewrite Hlp. cbv zeta.
  change (zip_with (fun lp0 l : A => exp (lp0 - l)))
    with (zip_with (Chain.ratio exp)).
  rewrite (zip_with_length (Chain.ratio exp) lp logp) by lia.
  rewrite Llp. reflexivity.
Qed.

(** Chain [c] of the new state is [chain_step] of chain [c] of the old one
    and of the draws with index [c]. *)
Lemma step_chain (w : A) (i : nat) (x : list (mat A)) (logp : list A)
      (k : key) (na : A) (lp : list A) (c : nat) :
  length logp = length x ->
  vmap target (step_proposal rng w x k) = Some lp ->
  c < length x ->
  let accept := step_accept rng exp x k lp logp in
  Chain.chain_step exp target w (nth c x []) (nth c logp s0)
                   (nth c (step_noise rng x k) []) (nth c (step_uniform rng x k) s0)
  = Some (nth c (Mcmc.where_ accept (step_proposal rng w x k) x) [],
          nth c (Mcmc.where_ accept lp logp) s0,
          nth c accept false).
Proof.
  intros Hlogp Hlp Hc accept.
  pose proof (vmap_length _ _ _ Hlp) as Llp.
  rewrite step_proposal_length in Llp.
  pose proof (step_accept_length x k lp logp Llp Hlogp) as Lacc.
  fold accept in Lacc.
  pose proof (vmap_nth_default target _ lp c [] s0 Hlp) as Hlpc.
  rewrite step_proposal_length in Hlpc. specialize (Hlpc Hc).
  assert (Hprop : nth c (step_proposal rng w x k) []
                  = Chain.propose w (nth c x []) (nth c (step_noise rng x k) [])).
  { unfold step_proposal.
    apply nth_zip_with; [exact Hc | now rewrite step_noise_length]. }
  rewrite Hprop in Hlpc.
  unfold Chain.chain_step. rewrite Hlpc. cbv zeta.
  assert (Hacc : nth c accept false
                 = (nth c (step_uniform rng x k) s0
                    <? Chain.ratio exp (nth c lp s0) (nth c logp s0))).
  { unfold accept, step_accept.
    rewrite (nth_zip_with sltb _ _ c s0 s0 false).
    - f_equal. apply nth_zip_with; lia.
    - unfold step_uniform. now rewrite uniform1_length.
    - rewrite zip_with_length; lia. }
  rewrite <- Hacc.
  rewrite !nth_where by (rewrite ?step_proposal_length; lia).
  rewrite Hprop. reflexivity.
Qed.

End StepChains.

Section MetropolisProperties.
Local Open Scope R_scope.

Variable key : Type.
Variable rng : Random key R.
Variable exp : R -> R.
Variable target : mat R -> option R.

Lemma sltb_Rlt (u r : R) : sltb u r = true <-> u < r.
Proof.
  cbn [sltb R_Scalar]. destruct (Rlt_dec u r) as [Hlt | Hnlt]; split; intros E.
  - exact Hlt.
  - reflexivity.
  - discriminate.
  - contradiction.
Qed.

Lemma proposals_total (w : R) (x : list (mat R)) (k : key) :
  (forall c, (c < length x)%nat ->
     exists l, target (Chain.propose w (nth c x [])
                                     (nth c (step_noise rng x k) [])) = Some l) ->
  exists lp, vmap target (step_proposal rng w x k) = Some lp
             /\ length lp = length x.
Proof.
  intros Htot.
  destruct (vmap_total target (step_proposal rng w x k)) as (lp & Hlp & Llp).
  - intros a Hin. apply (In_nth _ _ []) in Hin as (c & Hc & <-).
    rewrite step_proposal_length in Hc.
    unfold step_proposal.
    rewrite (nth_zip_with _ _ _ c [] [] [])
      by (rewrite ?step_noise_length; lia).
    apply Htot, Hc.
  - exists lp. split; [exact Hlp |].
    now rewrite Llp, step_proposal_length.
Qed.

Lemma chain_step_rule (w : R) (xb : mat R) (lb : R) (nb : mat R) (u : R)
      (x' : mat R) (l' : R) (a : bool) :
  Chain.chain_step exp target w xb lb nb u = Some (x', l', a) ->
  exists lp,
    target (Chain.propose w xb nb) = Some lp
    /\ (a = true <-> u < exp (lp - lb))
    /\ x' = (if a then Chain.propose w xb nb else xb)
    /\ l' = (if a then lp else lb).
Proof.
  unfold Chain.chain_step, Chain.ratio. intros Hch.
  destruct (target (Chain.propose w xb nb)) as [lp |]; [| discriminate].
  cbv zeta in Hch. injection Hch as <- <- <-.
  exists lp. split; [reflexivity |]. split; [apply sltb_Rlt |].
  split; reflexivity.
Qed.

(** C3. In one Metropolis step, for every chain [c] of the batch: the
    ratio is [exp] of the proposal log-density minus the current one; the
    chain accepts exactly when its uniform draw is strictly below the ratio,
    hence always when the ratio is at least 1 (draws lie below 1); an
    accepting chain takes the proposal positions and log-density, a
    rejecting chain keeps both; and the decision and the new state of
    chain [c] are the same whatever the other chains hold. *)
Theorem metropolis_step
        (w : R) (i : nat) (x : list (mat R)) (logp : list R) (k : key) (na : R) :
  length logp = length x ->
  (forall c, (c < length x)%nat ->
     exists l, target (Chain.propose w (nth c x [])
                                     (nth c (step_noise rng x k) [])) = Some l) ->
  (forall c, (c < length x)%nat -> nth c (step_uniform rng x k) 0 < 1) ->
  exists x' logp' accept,
    step_decisions rng exp target w x logp k = Some accept
    /\ Mcmc.step rng exp (vmap target) w i (x, logp, k, na)
       = Some (x', logp', split rng k 3 0,
               na + INR (Mcmc.count_true accept))
    /\ length x' = length x /\ length logp' = length x
    /\ length accept = length x
    /\ (forall c, (c < length x)%nat ->
          let proposal :=
            Chain.propose w (nth c x []) (nth c (step_noise rng x k) []) in
          let u := nth c (step_uniform rng x k) 0 in
          exists lp,
            target proposal = Some lp
            /\ (nth c accept false = true <-> u < exp (lp - nth c logp 0))
            /\ (1 <= exp (lp - nth c logp 0) -> nth c accept false = true)
            /\ nth c x' []
               = (if nth c accept false then proposal else nth c x [])
            /\ nth c logp' 0
               = (if nth c accept false then lp else nth c logp 0))
    /\ (forall (x2 : list (mat R)) (logp2 : list R) (na2 : R) (c : nat),
          Mcmc.shape3 x2 = Mcmc.shape3 x ->
          length logp2 = length x2 ->
          (forall c2, (c2 < length x2)%nat ->
             exists l, target (Chain.propose w (nth c2 x2 [])
                                 (nth c2 (step_noise rng x2 k) [])) = Some l) ->
          (c < length x)%nat ->
          nth c x2 [] = nth c x [] -> nth c logp2 0 = nth c logp 0 ->
          exists x2' logp2' accept2,
            step_decisions rng exp target w x2 logp2 k = Some accept2
            /\ Mcmc.step rng exp (vmap target) w i (x2, logp2, k, na2)
               = Some (x2', logp2', split rng k 3 0,
                       na2 + INR (Mcmc.count_true accept2))
            /\ nth c accept2 false = nth c accept false
            /\ nth c x2' [] = nth c x' []
            /\ nth c logp2' 0 = nth c logp' 0).
Proof.
  intros Hlogp Htot Hu.
  destruct (proposals_total w x k Htot) as (lp & Hlp & Llp).
  pose proof (step_accept_length key rng exp x k lp logp Llp Hlogp) as Lacc.
  exists (Mcmc.where_ (step_accept rng exp x k lp logp)
                      (step_proposal rng w x k) x),
         (Mcmc.where_ (step_accept rng exp x k lp logp) lp logp),
         (step_accept rng exp x k lp logp).
  split; [unfold step_decisions; now rewrite Hlp |].
  split; [exact (step_eval key rng exp target w i x logp k na lp Hlogp Hlp) |].
  split; [rewrite where_length; rewrite ?step_proposal_length; lia |].
  split; [rewrite where_length; lia |].
  split; [exact Lacc |].
  split.
  - intros c Hc. cbv zeta.
    pose proof (step_chain key rng exp target w i x logp k na lp c
                           Hlogp Hlp Hc) as Hch.
    cbv zeta in Hch. change (@s0 R R_Scalar) with 0 in Hch.
    apply chain_step_rule in Hch as (lpc & Ht & Hacc & Hx' & Hl').
    exists lpc. split; [exact Ht |]. split; [exact Hacc |].
    split; [| split; assumption].
    intros Hge. apply Hacc. specialize (Hu c Hc). lra.
  - intros x2 logp2 na2 c Hsh Hlogp2 Htot2 Hc Hx2 Hl2.
    assert (Hlen : length x2 = length x).
    { unfold Mcmc.shape3 in Hsh. now injection Hsh. }
    destruct (proposals_total w x2 k Htot2) as (lp2 & Hlp2 & Llp2).
    exists (Mcmc.where_ (step_accept rng exp x2 k lp2 logp2)
                        (step_proposal rng w x2 k) x2),
           (Mcmc.where_ (step_accept rng exp x2 k lp2 logp2) lp2 logp2),
           (step_accept rng exp x2 k lp2 logp2).
    split; [unfold step_decisions; now rewrite Hlp2 |].
    split;
      [exact (step_eval key rng exp target w i x2 logp2 k na2 lp2
                        Hlogp2 Hlp2) |].
    pose proof (step_chain key rng exp target w i x logp k na lp c
                           Hlogp Hlp Hc) as Hch.
    pose proof (step_chain key rng exp target w i x2 logp2 k na2 lp2 c
                           Hlogp2 Hlp2 ltac:(lia)) as Hch2.
    cbv zeta in Hch, Hch2.
    assert (Hn : step_noise rng x2 k = step_noise rng x k)
      by (unfold step_noise; now rewrite Hsh).
    assert (Hun : step_uniform rng x2 k = step_uniform rng x k)
      by (unfold step_uniform; now rewrite Hlen).
    change (@s0 R R_Scalar) with 0 in Hch, Hch2.
    rewrite Hx2, Hl2, Hn, Hun, Hch in Hch2.
    injection Hch2 as E1 E2 E3. now rewrite E1, E2, E3.
Qed.

End MetropolisProperties.

Section MetropolisExamples.
Local Open Scope R_scope.

Lemma metropolis_step_witness :
  length [0] = length Sample.z
  /\ (forall c, (c < length Sample.z)%nat ->
        nth c (step_uniform Sample.rng Sample.z 0%nat) 0 < 1)
  /\ exists x' logp' accept,
       Mcmc.step Sample.rng exp (vmap Sample.target) (1 / 10) 0
                 (Sample.z, [0], 0%nat, 0)
       = Some (x', logp', split Sample.rng 0%nat 3 0,
               0 + INR (Mcmc.count_true accept))
       /\ length accept = length Sample.z.
Proof.
  assert (Hu : forall c, (c < length Sample.z)%nat ->
                 nth c (step_uniform Sample.rng Sample.z 0%nat) 0 < 1).
  { intros c Hc. unfold step_uniform. rewrite nth_uniform1 by exact Hc.
    simpl. lra. }
  split; [reflexivity |]. split; [exact Hu |].
  destruct (metropolis_step nat Sample.rng exp Sample.target (1 / 10) 0
              Sample.z [0] 0%nat 0 eq_refl)
    as (x' & logp' & accept & _ & Hstep & _ & _ & Hlen & _).
  - intros c _. eexists. reflexivity.
  - exact Hu.
  - exists x', logp', accept. split; [exact Hstep | exact Hlen].
Defined.

End MetropolisExamples.

(** ** MCMCSampler: the invariant of the chain state *)

Lemma vmap_pointwise {X Y : Type} (f : X -> option Y) (l : list X)
      (r : list Y) (dx : X) (dy : Y) :
  length r = length l ->
  (forall c, c < length l -> f (nth c l dx) = Some (nth c r dy)) ->
  vmap f l = Some r.
Proof.
  revert r. induction l as [| a l IH]; intros [| b r] Hlen Hpt;
    try discriminate; [reflexivity |].
  pose proof (Hpt 0 ltac:(simpl; lia)) as H0. cbn [nth] in H0.
  simpl. rewrite H0.
  rewrite (IH r); [reflexivity | simpl in Hlen; lia |].
  intros c Hc. apply (Hpt (S c)). simpl. lia.
Qed.

Lemma vmap_where {X Y : Type} (f : X -> option Y) (acc : list bool)
      (xp x : list X) (lp logp : list Y) :
  vmap f xp = Some lp -> vmap f x = Some logp ->
  vmap f (Mcmc.where_ acc xp x) = Some (Mcmc.where_ acc lp logp).
Proof.
  revert xp x lp logp.
  induction acc as [| cb acc IH]; intros xp x lp logp Hp Hx.
  - reflexivity.
  - destruct xp as [| ap xp]; simpl in Hp.
    { injection Hp as <-. reflexivity. }
    destruct (f ap) as [bp |] eqn:Eap; [| discriminate].
    destruct (vmap f xp) as [lp' |] eqn:Exp; [| discriminate].
    injection Hp as <-.
    destruct x as [| a x]; simpl in Hx.
    { injection Hx as <-. reflexivity. }
    destruct (f a) as [b |] eqn:Ea; [| discriminate].
    destruct (vmap f x) as [logp' |] eqn:Ex; [| discriminate].
    injection Hx as <-.
    simpl. rewrite (IH xp x lp' logp' Exp Ex).
    destruct cb; [rewrite Eap | rewrite Ea]; reflexivity.
Qed.

Lemma where_In {X : Type} (acc : list bool) (a b : list X) (v : X) :
  In v (Mcmc.where_ acc a b) -> In v a \/ In v b.
Proof.
  revert a b. induction acc as [| cb acc IH]; intros [| u a] [| u' b] Hin;
    simpl in Hin; try contradiction.
  destruct Hin as [E | Hin].
  - destruct cb; subst v; [left | right]; now left.
  - destruct (IH a b Hin); [left | right]; now right.
Qed.

Section ChainInvariant.
Context {A : Type} `{Scalar A}.
Local Open Scope scalar_scope.

Variable key : Type.
Variable rng : Random key A.
Variable exp : A -> A.

Lemma zip_with_row_length (f : A -> A -> A) (r r' : list A) (dim : nat) :
  length r = dim -> length r' = dim -> length (zip_with f r r') = dim.
Proof. intros Hr Hr'. rewrite zip_with_length; lia. Qed.

Lemma propose_shape (w : A) (xb nb : mat A) (n dim : nat) :
  shape xb n dim -> n = 0 \/ shape nb n dim ->
  shape (Chain.propose w xb nb) n dim.
Proof.
  intros [Hn Hrows] [Hz | [Hn' Hrows']].
  - subst n. destruct xb; [| discriminate]. split; [reflexivity | constructor].
  - unfold Chain.propose. split.
    + rewrite zip_with_length; lia.
    + clear Hn Hn'. revert nb Hrows'.
      induction Hrows as [| r xb Hr _ IH]; intros nb Hrows'; [constructor |].
      destruct Hrows' as [| r' nb Hr' Hrows']; [constructor |].
      simpl. constructor; [| now apply IH].
      now apply zip_with_row_length.
Qed.

Lemma shape3_of (x : list (mat A)) (n dim : nat) :
  (forall xb, In xb x -> shape xb n dim) -> x <> [] -> 0 < n ->
  Mcmc.shape3 x = (length x, n, dim).
Proof.
  intros Hs Hne Hn. destruct x as [| xb x]; [contradiction |].
  destruct (Hs xb (or_introl eq_refl)) as [Hlen Hrows].
  unfold Mcmc.shape3. cbn [hd].
  destruct xb as [| r xb]; [simpl in Hlen; lia |].
  cbn [hd]. inversion Hrows as [| ? ? Hr _]. now rewrite Hlen, Hr.
Qed.

Lemma step_proposal_shape (w : A) (x : list (mat A)) (k : key) (n dim : nat) :
  (forall xb, In xb x -> shape xb n dim) ->
  forall xp, In xp (step_proposal rng w x k) -> shape xp n dim.
Proof.
  intros Hs xp Hin.
  apply (In_nth _ _ []) in Hin as (c & Hc & <-).
  rewrite step_proposal_length in Hc.
  unfold step_proposal.
  rewrite (nth_zip_with _ _ _ c [] [] []) by (rewrite ?step_noise_length; lia).
  apply propose_shape; [apply Hs, nth_In, Hc |].
  destruct n as [| n]; [now left | right].
  assert (Hne : x <> []) by (destruct x; [simpl in Hc; lia | discriminate]).
  unfold step_noise.
  rewrite (shape3_of x (S n) dim Hs Hne ltac:(lia)).
  apply (normal3_shape rng (split rng k 3 1) (length x) (S n) dim), nth_In.
  now rewrite normal3_length.
Qed.

Lemma boltzmann_total (beta : A) (n dim : nat) (xb : mat A) :
  shape xb n dim -> exists l, boltzmann beta n dim xb = Some l.
Proof.
  intros Hs. unfold boltzmann.
  destruct (energy_fn_total xb n dim Hs) as [e ->]. now eexists.
Qed.

Lemma invariant_vmap (beta : A) (n dim : nat) (x : list (mat A))
      (logp : list A) (k : key) (na : A) :
  chain_invariant beta n dim (x, logp, k, na)
  <-> (forall xb, In xb x -> shape xb n dim)
      /\ vmap (boltzmann beta n dim) x = Some logp.
Proof.
  unfold chain_invariant. split.
  - intros [Hlen Hc]. split.
    + intros xb Hin. apply (In_nth _ _ []) in Hin as (c & Hlt & <-).
      apply Hc, Hlt.
    + apply (vmap_pointwise _ _ _ [] s0 Hlen). intros c Hlt. apply Hc, Hlt.
  - intros [Hs Hv]. split; [now apply vmap_length in Hv |].
    intros c Hlt. split; [apply Hs, nth_In, Hlt |].
    now apply vmap_nth_default.
Qed.

(** Both outcomes of a step keep the invariant: the new state is assembled,
    chain by chain, from (proposal, target at the proposal) or from
    (current positions, current log-density). *)
Lemma step_preserves (beta : A) (n dim : nat) (w : A) (i : nat)
      (st : Mcmc.state A key) :
  chain_invariant beta n dim st ->
  exists st',
    Mcmc.step rng exp (fun x => Mcmc.logp beta x n dim) w i st = Some st'
    /\ chain_invariant beta n dim st'.
Proof.
  destruct st as [[[x logp] k] na]. intros Hinv.
  apply invariant_vmap in Hinv as [Hs Hv].
  pose proof (vmap_length _ _ _ Hv) as Hlen.
  destruct (vmap_total (boltzmann beta n dim) (step_proposal rng w x k))
    as (lp & Hlp & Llp).
  { intros xp Hin. apply boltzmann_total.
    now apply (step_proposal_shape w x k n dim Hs). }
  eexists. split.
  - exact (step_eval key rng exp (boltzmann beta n dim) w i x logp k na lp
                     Hlen Hlp).
  - cbv zeta. apply invariant_vmap. split.
    + intros xb Hin. apply where_In in Hin as [Hin | Hin].
      * now apply (step_proposal_shape w x k n dim Hs).
      * now apply Hs.
    + now apply vmap_where.
Qed.

Lemma fori_loop_invariant {S : Type} (P : S -> Prop)
      (body : nat -> S -> option S) :
  (forall i s, P s -> exists s', body i s = Some s' /\ P s') ->
  forall count lower init, P init ->
    exists s, Mcmc.fori_loop_from lower count body init = Some s /\ P s.
Proof.
  intros Hbody. induction count as [| count IH]; intros lower init Hinit.
  - exists init. split; [reflexivity | exact Hinit].
  - simpl. destruct (Hbody lower init Hinit) as (s' & -> & Hs').
    apply IH, Hs'.
Qed.

(** [mcmc] on well-shaped chains: it returns, and its rate is the count
    accumulated by the loop over [mc_steps * batch]. *)
Lemma mcmc_eval (beta : A) (n dim : nat) (w : A) (x_init : list (mat A))
      (k : key) (mc_steps : nat) :
  (forall xb, In xb x_init -> shape xb n dim) ->
  exists logp_init x logp kf num_accepts,
    Mcmc.logp beta x_init n dim = Some logp_init
    /\ Mcmc.fori_loop 0 mc_steps
         (Mcmc.step rng exp (fun x => Mcmc.logp beta x n dim) w)
         (x_init, logp_init, k, s0) = Some (x, logp, kf, num_accepts)
    /\ chain_invariant beta n dim (x, logp, kf, num_accepts)
    /\ Mcmc.mcmc rng exp (fun x => Mcmc.logp beta x n dim)
                 x_init k mc_steps w
       = Some (x, num_accepts / of_int (mc_steps * length x)).
Proof.
  intros Hs.
  destruct (vmap_total (boltzmann beta n dim) x_init) as (logp_init & Hv & _).
  { intros xb Hin. apply boltzmann_total, Hs, Hin. }
  assert (Hinit : chain_invariant beta n dim (x_init, logp_init, k, s0))
    by (apply invariant_vmap; split; assumption).
  destruct (fori_loop_invariant (chain_invariant beta n dim)
              (Mcmc.step rng exp (fun x => Mcmc.logp beta x n dim) w)
              (fun i st => step_preserves beta n dim w i st)
              (mc_steps - 0) 0 _ Hinit)
    as ([[[x logp] kf] na] & Hloop & Hinv).
  exists logp_init, x, logp, kf, na.
  split; [exact Hv |]. split; [exact Hloop |]. split; [exact Hinv |].
  unfold Mcmc.mcmc. change (Mcmc.logp beta x_init n dim)
    with (vmap (boltzmann beta n dim) x_init).
  rewrite Hv. unfold Mcmc.fori_loop in *. rewrite Hloop. reflexivity.
Qed.

(** One outer iteration on well-shaped chains: it returns; the inner loop
    ran with the width of the incoming state; the new width is
    [adapt_width] of the reported rate and that width. *)
Lemma sample_iter_eval (beta : A) (n dim mc_steps : nat)
      (s : Mcmc.sampler_state A key) :
  (forall xb, In xb (Mcmc.sx s) -> shape xb n dim) ->
  exists s' logp_init x logp kf num_accepts,
    Mcmc.logp beta (Mcmc.sx s) n dim = Some logp_init
    /\ Mcmc.fori_loop 0 mc_steps
         (Mcmc.step rng exp (fun x => Mcmc.logp beta x n dim) (Mcmc.swidth s))
         (Mcmc.sx s, logp_init, split rng (Mcmc.skey s) 2 1, s0)
       = Some (x, logp, kf, num_accepts)
    /\ Mcmc.sample_iter rng exp beta n dim mc_steps s = Some s'
    /\ Mcmc.sx s' = x
    /\ (forall xb, In xb x -> shape xb n dim)
    /\ Mcmc.skey s' = split rng (Mcmc.skey s) 2 0
    /\ Mcmc.swidth s'
       = Mcmc.adapt_width (num_accepts / of_int (mc_steps * length x))
                          (Mcmc.swidth s)
    /\ exists E,
         Mcmc.printed s'
         = Mcmc.printed s
           ++ [{| Mcmc.rep_E := E;
                  Mcmc.rep_acc := num_accepts / of_int (mc_steps * length x);
                  Mcmc.rep_width := Mcmc.swidth s |}].
Proof.
  intros Hs.
  destruct (mcmc_eval beta n dim (Mcmc.swidth s) (Mcmc.sx s)
              (split rng (Mcmc.skey s) 2 1) mc_steps Hs)
    as (logp_init & x & logp & kf & na & Hinit & Hloop & Hinv & Hm).
  apply invariant_vmap in Hinv as [Hsx _].
  destruct (batch_energy_total x n dim Hsx) as (energy & He & _).
  eexists. exists logp_init, x, logp, kf, na.
  split; [exact Hinit |]. split; [exact Hloop |].
  split; [unfold Mcmc.sample_iter; rewrite Hm, He; reflexivity |].
  cbn. split; [reflexivity |]. split; [exact Hsx |].
  split; [reflexivity |]. split; [reflexivity |].
  eexists. reflexivity.
Qed.

(** The sampling loop on well-shaped chains: it returns after any number
    of iterations, and the widths it prints, followed by the width it
    ends with, are the starting width followed by [width_trace] of the
    rates it prints. *)
Lemma sample_loop_trace (beta : A) (n dim mc_steps iters : nat)
      (s : Mcmc.sampler_state A key) :
  (forall xb, In xb (Mcmc.sx s) -> shape xb n dim) ->
  exists s' reports,
    Mcmc.sample_loop rng exp iters beta n dim mc_steps s = Some s'
    /\ Mcmc.printed s' = Mcmc.printed s ++ reports
    /\ length reports = iters
    /\ map Mcmc.rep_width reports ++ [Mcmc.swidth s']
       = Mcmc.swidth s
         :: Mcmc.width_trace (map Mcmc.rep_acc reports) (Mcmc.swidth s).
Proof.
  revert s. induction iters as [| iters IH]; intros s Hs.
  - exists s, []. cbn. rewrite app_nil_r. repeat split.
  - destruct (sample_iter_eval beta n dim mc_steps s Hs)
      as (s1 & logp_init & x & logp & kf & na
          & _ & _ & Hiter & Hx & Hsx & _ & Hw & E & Hp).
    rewrite <- Hx in Hsx.
    destruct (IH s1 Hsx) as (s' & reports & Hloop & Hp' & Hlen & Htr).
    eexists s', (_ :: reports). cbn [Mcmc.sample_loop]. rewrite Hiter.
    split; [exact Hloop |].
    split; [rewrite Hp', Hp, <- app_assoc; reflexivity |].
    split; [simpl; now rewrite Hlen |].
    cbn [map Mcmc.rep_width Mcmc.rep_acc Mcmc.width_trace app].
    rewrite <- Hw. f_equal. exact Htr.
Qed.

(** The whole sampling program, from the initial draw, returns. *)
Lemma sample_program_total (beta : A) (n dim mc_steps iters batch : nat)
      (k : key) (mc_width : A) :
  exists s',
    Mcmc.sample_loop rng exp iters beta n dim mc_steps
                     (Mcmc.sample_init rng k batch n dim mc_width) = Some s'.
Proof.
  destruct (sample_loop_trace beta n dim mc_steps iters
              (Mcmc.sample_init rng k batch n dim mc_width))
    as (s' & _ & Hloop & _).
  - cbn [Mcmc.sx Mcmc.sample_init]. apply normal3_shape.
  - now exists s'.
Qed.

(** C10. The chain state keeps, for every chain, "stored log-density =
    [-beta * energy] of the stored positions": the state that [mcmc] builds
    before its loop satisfies it, every Metropolis step is defined on a
    state that satisfies it and returns one that does, and so does the state
    after any number of steps of the loop. *)
Theorem chain_state_invariant
        (beta : A) (n dim : nat) (w : A) (x_init : list (mat A)) (k : key) :
  (forall xb, In xb x_init -> shape xb n dim) ->
  let logp_fn := fun x => Mcmc.logp beta x n dim in
  exists logp_init,
    logp_fn x_init = Some logp_init
    /\ chain_invariant beta n dim (x_init, logp_init, k, s0)
    /\ (forall (i : nat) (st : Mcmc.state A key),
          chain_invariant beta n dim st ->
          exists st',
            Mcmc.step rng exp logp_fn w i st = Some st'
            /\ chain_invariant beta n dim st')
    /\ (forall mc_steps,
          exists st,
            Mcmc.fori_loop 0 mc_steps (Mcmc.step rng exp logp_fn w)
                           (x_init, logp_init, k, s0) = Some st
            /\ chain_invariant beta n dim st).
Proof.
  intros Hs logp_fn.
  destruct (vmap_total (boltzmann beta n dim) x_init) as (logp_init & Hv & _).
  { intros xb Hin. apply boltzmann_total, Hs, Hin. }
  assert (Hinit : chain_invariant beta n dim (x_init, logp_init, k, s0))
    by (apply invariant_vmap; split; assumption).
  exists logp_init. split; [exact Hv |]. split; [exact Hinit |]. split.
  - intros i st. apply step_preserves.
  - intros mc_steps. unfold Mcmc.fori_loop.
    apply (fori_loop_invariant (chain_invariant beta n dim)); [| exact Hinit].
    intros i st. apply step_preserves.
Qed.

End ChainInvariant.

Section InvariantExamples.
Local Open Scope R_scope.

Lemma sample_shape : forall xb, In xb Sample.z -> shape xb 2 1.
Proof. intros xb [<- | []]. exact pair01_shape. Qed.

Lemma chain_state_invariant_witness :
  (forall xb, In xb Sample.z -> shape xb 2 1)
  /\ exists logp_init,
       Mcmc.logp 10 Sample.z 2 1 = Some logp_init
       /\ chain_invariant 10 2 1 (Sample.z, logp_init, 0%nat, 0)
       /\ exists st,
            Mcmc.fori_loop 0 100
              (Mcmc.step Sample.rng exp (fun x => Mcmc.logp 10 x 2 1) (1 / 10))
              (Sample.z, logp_init, 0%nat, 0) = Some st
            /\ chain_invariant 10 2 1 st.
Proof.
  split; [exact sample_shape |].
  destruct (chain_state_invariant nat Sample.rng exp 10 2 1 (1 / 10)
              Sample.z 0%nat sample_shape)
    as (logp_init & Hinit & Hinv & _ & Hloop).
  exists logp_init. split; [exact Hinit |]. split; [exact Hinv |].
  exact (Hloop 100%nat).
Defined.

End InvariantExamples.

(** ** MCMCSampler: step-width adaptation in binary64 *)

Section WidthAdaptation.
Local Open Scope float_scope.

Lemma literals_binary64 :
  of_dec 525 3 = 0.525 /\ of_dec 475 3 = 0.475
  /\ of_dec 105 2 = 1.05 /\ of_dec 95 2 = 0.95.
Proof. repeat split; vm_compute; reflexivity. Qed.

Lemma adapt_width_binary64 (acc w : float) :
  Mcmc.adapt_width acc w
  = let w1 := if 0.525 <? acc then w * 1.05 else w in
    if acc <? 0.475 then w1 * 0.95 else w1.
Proof.
  unfold Mcmc.adapt_width.
  destruct literals_binary64 as (-> & -> & -> & ->). reflexivity.
Qed.

(** No rate is above the high threshold and below the low one. *)
Lemma thresholds_exclusive (acc : float) :
  (0.525 <? acc) = true -> (acc <? 0.475) = false.
Proof.
  rewrite !ltb_spec.
  replace (Prim2SF 0.525) with (S754_finite false 4728779608739021 (-53))
    by (vm_compute; reflexivity).
  replace (Prim2SF 0.475) with (S754_finite false 8556839292003942 (-54))
    by (vm_compute; reflexivity).
  unfold SFltb, SFcompare.
  destruct (Prim2SF acc) as [s | s | | s m e]; try discriminate.
  - destruct s; [discriminate | reflexivity].
  - destruct s; [discriminate |].
    destruct (Z.compare_spec (-53) e); destruct (Z.compare_spec e (-54));
      try lia; try discriminate; reflexivity.
Qed.

(** C5. The width changes only where an outer iteration ends, by the rate
    [mcmc] reports for it, which is the accept count divided by
    [mc_steps * batch]; all [mc_steps] inner steps of one call run with the
    width the call was given, and over the sampling loop the widths follow
    [width_trace] of the reported rates.  A rate above 0.525 multiplies the
    width by 1.05, a rate below 0.475 multiplies it by 0.95, any other rate
    leaves it unchanged.  From width 1.0 the rates [0.6, 0.6, 0.4, 0.4, 0.5]
    apply the multipliers [1.05, 1.05, 0.95, 0.95, 1.0] in that order and
    give the binary64 trace [1.05, 1.1025, 1.047375, 0.9950062499999999,
    0.9950062499999999]. *)
Theorem width_adaptation :
  (forall acc w : float,
      ((0.525 <? acc) = true -> Mcmc.adapt_width acc w = w * 1.05)
      /\ ((acc <? 0.475) = true -> Mcmc.adapt_width acc w = w * 0.95)
      /\ ((0.525 <? acc) = false -> (acc <? 0.475) = false ->
          Mcmc.adapt_width acc w = w))
  /\ (forall (key : Type) (rng : Random key float) (exp : float -> float)
             (beta : float) (n dim mc_steps : nat)
             (s : Mcmc.sampler_state float key),
         (forall xb, In xb (Mcmc.sx s) -> shape xb n dim) ->
         exists s' logp_init x logp kf num_accepts,
           Mcmc.logp beta (Mcmc.sx s) n dim = Some logp_init
           /\ Mcmc.fori_loop 0 mc_steps
                (Mcmc.step rng exp (fun x => Mcmc.logp beta x n dim)
                           (Mcmc.swidth s))
                (Mcmc.sx s, logp_init, split rng (Mcmc.skey s) 2 1, 0)
              = Some (x, logp, kf, num_accepts)
           /\ Mcmc.sample_iter rng exp beta n dim mc_steps s = Some s'
           /\ Mcmc.swidth s'
              = Mcmc.adapt_width
                  (num_accepts / of_int (mc_steps * length x))
                  (Mcmc.swidth s))
  /\ (forall (key : Type) (rng : Random key float) (exp : float -> float)
             (beta : float) (n dim mc_steps iters : nat)
             (s : Mcmc.sampler_state float key),
         (forall xb, In xb (Mcmc.sx s) -> shape xb n dim) ->
         exists s' reports,
           Mcmc.sample_loop rng exp iters beta n dim mc_steps s = Some s'
           /\ Mcmc.printed s' = Mcmc.printed s ++ reports
           /\ length reports = iters
           /\ map Mcmc.rep_width reports ++ [Mcmc.swidth s']
              = Mcmc.swidth s
                :: Mcmc.width_trace (map Mcmc.rep_acc reports) (Mcmc.swidth s))
  /\ Mcmc.width_trace [0.6; 0.6; 0.4; 0.4; 0.5] 1
     = compound [1.05; 1.05; 0.95; 0.95; 1] 1
  /\ Mcmc.width_trace [0.6; 0.6; 0.4; 0.4; 0.5] 1
     = [1.05; 1.1025; 1.047375; 0.9950062499999999; 0.9950062499999999].
Proof.
  split; [| split; [| split; [| split]]].
  - intros acc w. rewrite adapt_width_binary64. cbv zeta.
    split; [| split].
    + intros Hhi. rewrite Hhi, (thresholds_exclusive acc Hhi). reflexivity.
    + intros Hlo. rewrite Hlo.
      destruct (0.525 <? acc) eqn:Hhi; [| reflexivity].
      rewrite (thresholds_exclusive acc Hhi) in Hlo. discriminate.
    + intros Hhi Hlo. now rewrite Hhi, Hlo.
  - intros key rng exp beta n dim mc_steps s Hs.
    destruct (sample_iter_eval key rng exp beta n dim mc_steps s Hs)
      as (s' & logp_init & x & logp & kf & na
          & Hinit & Hloop & Hiter & _ & _ & _ & Hw & _).
    exists s', logp_init, x, logp, kf, na. repeat split; assumption.
  - intros key rng exp beta n dim mc_steps iters s Hs.
    exact (sample_loop_trace key rng exp beta n dim mc_steps iters s Hs).
  - vm_compute. reflexivity.
  - vm_compute. reflexivity.
Qed.

Lemma width_adaptation_witness :
  (0.525 <? 0.6) = true /\ Mcmc.adapt_width 0.6 1 = 1 * 1.05.
Proof.
  split; [reflexivity |].
  apply (proj1 (proj1 width_adaptation 0.6 1)). reflexivity.
Defined.

End WidthAdaptation.

(** ** TrainingLoop: consumption of PRNG keys *)

Section TrainingKeys.
Context {A : Type} `{Scalar A}.

Variable params : Type.
Variable flow_apply : params -> mat A -> mat A.
Variable norm_logpdf : A -> A.
Variable jacfwd : (list A -> list A) -> list A -> mat A.
Variable slogdet : mat A -> A * A.
Variable key : Type.
Variable rng : Random key A.
Variable opt_state grads : Type.
Variable grad_lossfn : params -> list (mat A) -> grads.
Variable apply_update : grads -> opt_state -> params -> params * opt_state.

Local Abbreviation train_iter :=
  (Flow.train_iter flow_apply norm_logpdf jacfwd slogdet rng
                   grad_lossfn apply_update).
Local Abbreviation train :=
  (Flow.train flow_apply norm_logpdf jacfwd slogdet rng
              grad_lossfn apply_update).

Variables (batch n dim : nat) (beta : A).
Hypothesis flow_shape : forall p zb, shape (flow_apply p zb) n dim.

Lemma observable_and_lossfn_total (p : params) (z : list (mat A)) :
  exists r,
    Flow.observable_and_lossfn flow_apply norm_logpdf jacfwd slogdet
                               batch n dim beta p z = Some r.
Proof.
  unfold Flow.observable_and_lossfn, Flow.make_loss, Flow.logp.
  destruct (batch_energy_total
              (map (fun t => snd t)
                   (map (fun zb => Flow.logp_novmap flow_apply norm_logpdf
                                     jacfwd slogdet zb p) z)) n dim)
    as (Eloc & -> & _).
  - intros xb Hin. rewrite map_map in Hin.
    apply in_map_iff in Hin as (zb & <- & _).
    rewrite logp_novmap_x. apply flow_shape.
  - eexists. reflexivity.
Qed.

(** One iteration: the carried key is replaced by the first half of its
    split, the batch is drawn with that same new key, and the second half
    ([subkey]) is passed to nothing. *)
Lemma train_iter_eval (s : Flow.train_state A params key opt_state) :
  exists s',
    train_iter batch n dim beta s = Some s'
    /\ Flow.ts_key s' = split rng (Flow.ts_key s) 2 0
    /\ Flow.ts_calls s'
       = Flow.ts_calls s ++ [CallSplit (Flow.ts_key s);
                             CallNormal (split rng (Flow.ts_key s) 2 0)]
    /\ length (Flow.loss_history s') = S (length (Flow.loss_history s)).
Proof.
  unfold Flow.train_iter, Flow.update.
  destruct (observable_and_lossfn_total (Flow.ts_params s)
              (normal3 rng (split rng (Flow.ts_key s) 2 0) batch n dim))
    as (datas & ->).
  destruct (apply_update _ _ _) as [p' os'].
  eexists. split; [reflexivity |]. cbn.
  split; [reflexivity |]. split; [reflexivity |].
  rewrite length_app. simpl. lia.
Qed.

(** C6, as the code behaves.  In any two consecutive iterations of the
    training loop, the key with which the first iteration draws its latent
    batch is the key that the second iteration splits: that key is consumed
    twice, and the fresh [subkey] of either split is consumed by no call. *)
Theorem training_key_reuse (s : Flow.train_state A params key opt_state) :
  let k0 := Flow.ts_key s in
  let k1 := split rng k0 2 0 in
  let k2 := split rng k1 2 0 in
  exists s2,
    train 2 batch n dim beta s = Some s2
    /\ Flow.ts_key s2 = k2
    /\ Flow.ts_calls s2
       = Flow.ts_calls s
         ++ [CallSplit k0; CallNormal k1; CallSplit k1; CallNormal k2].
Proof.
  intros k0 k1 k2. cbn [Flow.train].
  destruct (train_iter_eval s) as (s1 & -> & Hk1 & Hc1 & _).
  destruct (train_iter_eval s1) as (s2 & -> & Hk2 & Hc2 & _).
  exists s2. split; [reflexivity |].
  rewrite Hk1 in Hk2, Hc2. fold k0 k1 in Hk2, Hc2, Hc1. fold k2 in Hk2, Hc2.
  split; [exact Hk2 |].
  now rewrite Hc2, Hc1, <- app_assoc.
Qed.

End TrainingKeys.

Section TrainingExamples.
Local Open Scope R_scope.

Lemma training_key_reuse_witness :
  (forall p zb, shape (Sample.const_flow p zb) 2 1)
  /\ exists s2,
       Flow.train Sample.const_flow Sample.norm_logpdf Sample.jacfwd
                  Sample.slogdet Sample.rng Sample.grad_lossfn
                  Sample.apply_update 2 1 2 1 10 Sample.train_init = Some s2
       /\ Flow.ts_key s2 = 171%nat
       /\ Flow.ts_calls s2
          = [CallSplit 42%nat; CallNormal 85%nat;
             CallSplit 85%nat; CallNormal 171%nat].
Proof.
  assert (Hs : forall p zb, shape (Sample.const_flow p zb) 2 1)
    by (intros p zb; exact pair01_shape).
  split; [exact Hs |].
  exact (training_key_reuse unit Sample.const_flow Sample.norm_logpdf
           Sample.jacfwd Sample.slogdet nat Sample.rng unit unit
           Sample.grad_lossfn Sample.apply_update 1 2 1 10 Hs
           Sample.train_init).
Defined.

End TrainingExamples.

(** ** EnergyModel in binary64: coincident particles *)

Section Binary64.

Lemma iter_pos_inv {X : Type} (P : X -> Prop) (f : X -> X) :
  (forall y, P y -> P (f y)) ->
  forall p x, P x -> P (SpecFloat.iter_pos f p x).
Proof.
  intros Hf. induction p as [p IH | p IH |]; intros x Hx; simpl; auto.
Qed.

Lemma shr_1_nonneg (mrs : shr_record) :
  (0 <= shr_m mrs)%Z -> (0 <= shr_m (shr_1 mrs))%Z.
Proof.
  destruct mrs as [m r s]. simpl. destruct m as [| p | p]; [| destruct p | ]; simpl; lia.
Qed.

Lemma shr_fexp_nonneg (m e : Z) (l : location) :
  (0 <= m)%Z -> (0 <= shr_m (fst (shr_fexp prec emax m e l)))%Z.
Proof.
  intros Hm. unfold shr_fexp, shr.
  assert (H0 : (0 <= shr_m (shr_record_of_loc m l))%Z)
    by (destruct l as [| []]; exact Hm).
  destruct (_ - e)%Z; simpl; try exact H0.
  apply (iter_pos_inv (fun r => (0 <= shr_m r)%Z)); [apply shr_1_nonneg | exact H0].
Qed.

Lemma round_nearest_even_nonneg (m : Z) (l : location) :
  (0 <= m)%Z -> (0 <= round_nearest_even m l)%Z.
Proof.
  intros Hm. destruct l as [| []]; simpl; try lia.
  destruct (Z.even m); lia.
Qed.

Lemma binary_round_aux_sign (s : bool) (m e : Z) (l : location) :
  (0 <= m)%Z ->
  match binary_round_aux prec emax s m e l with
  | S754_zero s' | S754_infinity s' | S754_finite s' _ _ => s' = s
  | S754_nan => False
  end.
Proof.
  intros Hm. unfold binary_round_aux.
  pose proof (shr_fexp_nonneg m e l Hm) as H1.
  destruct (shr_fexp prec emax m e l) as [mrs' e'].
  simpl in H1.
  pose proof (shr_fexp_nonneg _ e' loc_Exact
    (round_nearest_even_nonneg (shr_m mrs') (loc_of_shr_record mrs') H1)) as H2.
  destruct (shr_fexp prec emax _ e' loc_Exact) as [mrs'' e''].
  simpl in H2.
  destruct (shr_m mrs'') as [| p | p]; [reflexivity | | lia].
  destruct (e'' <=? emax - prec)%Z; reflexivity.
Qed.

Lemma round_aux_ok (b : bool) (m e : Z) (l : location) :
  (0 <= m)%Z -> sf_ok b (binary_round_aux prec emax false m e l).
Proof.
  intros Hm. pose proof (binary_round_aux_sign false m e l Hm) as H.
  destruct (binary_round_aux prec emax false m e l); simpl; tauto.
Qed.

Lemma round_aux_any (b s : bool) (m e : Z) (l : location) :
  (0 <= m)%Z -> sf_any b (binary_round_aux prec emax s m e l).
Proof.
  intros Hm. pose proof (binary_round_aux_sign s m e l Hm) as H.
  destruct (binary_round_aux prec emax s m e l); simpl; tauto.
Qed.

Lemma round_ok (b : bool) (m : positive) (e : Z) :
  sf_ok b (binary_round prec emax false m e).
Proof.
  unfold binary_round. destruct (shl_align _ _ _) as [mz ez].
  apply round_aux_ok. lia.
Qed.

Lemma round_any (b s : bool) (m : positive) (e : Z) :
  sf_any b (binary_round prec emax s m e).
Proof.
  unfold binary_round. destruct (shl_align _ _ _) as [mz ez].
  apply round_aux_any. lia.
Qed.

Lemma mul_self_ok (b : bool) (f : spec_float) :
  sf_any b f -> sf_ok b (SF64mul f f).
Proof.
  destruct f as [s | s | | s m e]; simpl; intros Hf;
    try apply xorb_nilpotent; try exact Hf.
  rewrite xorb_nilpotent. apply round_aux_ok. lia.
Qed.

Lemma add_ok (b : bool) (f g : spec_float) :
  sf_ok b f -> sf_ok b g -> sf_ok b (SF64add f g).
Proof.
  destruct f as [s | s | | s m e]; destruct g as [s' | s' | | s' m' e'];
    simpl; intros Hf Hg; subst; simpl; try reflexivity; try assumption.
  apply round_ok.
Qed.

Lemma add_top_l (b : bool) (f g : spec_float) :
  sf_top b f -> sf_ok b g -> sf_top b (SF64add f g).
Proof.
  destruct f as [s | [] | | s m e]; destruct g as [s' | s' | | s' m' e'];
    simpl; intros Hf Hg; subst; simpl; try tauto.
Qed.

Lemma add_top_r (b : bool) (f g : spec_float) :
  sf_ok b f -> sf_top b g -> sf_top b (SF64add f g).
Proof.
  destruct f as [s | s | | s m e]; destruct g as [s' | [] | | s' m' e'];
    simpl; intros Hf Hg; subst; simpl; try tauto.
Qed.

Lemma sub_any (b : bool) (f g : spec_float) :
  sf_fin b f -> sf_fin b g -> sf_any b (SF64sub f g).
Proof.
  destruct f as [s | s | | s m e]; destruct g as [s' | s' | | s' m' e'];
    simpl; intros Hf Hg; try exact I; try assumption;
    try (destruct s, s'; simpl; (exact I || assumption)).
  destruct (_ - _)%Z; simpl; try exact I; apply round_any.
Qed.

Lemma sqrt_ok (b : bool) (f : spec_float) :
  sf_ok b f -> sf_ok b (SF64sqrt f).
Proof.
  destruct f as [s | s | | s m e]; simpl; intros Hf; subst; simpl;
    try reflexivity; try assumption.
  unfold SFsqrt_core_binary.
  match goal with |- context [Z.sqrtrem ?a] =>
    pose proof (Z.sqrtrem_sqrt a) as Hq; pose proof (Z.sqrt_nonneg a) as Hn;
    destruct (Z.sqrtrem a) as [q r] end.
  simpl in Hq. subst q. apply round_aux_ok, Hn.
Qed.

Lemma recip_ok (b : bool) (f : spec_float) :
  sf_ok b f -> sf_ok b (SF64div (Prim2SF one) f).
Proof.
  replace (Prim2SF one) with (S754_finite false 4503599627370496 (-52))
    by (vm_compute; reflexivity).
  destruct f as [s | s | | s m e]; simpl; intros Hf; subst; simpl;
    try reflexivity; try assumption.
  unfold SFdiv_core_binary.
  match goal with |- context [Z.div_eucl ?a ?d] =>
    pose proof (Z.div_pos a d) as Hq; unfold Z.div in Hq;
    destruct (Z.div_eucl a d) as [q r] end.
  apply round_aux_ok, Hq; [| lia].
  destruct (_ - _)%Z; try lia. apply Z.shiftl_nonneg. lia.
Qed.

Lemma recip_zero (f : spec_float) :
  f = S754_zero false -> SF64div (Prim2SF one) f = S754_infinity false.
Proof. intros ->. vm_compute. reflexivity. Qed.

(** *** From the specification to the primitive operations *)

Abbreviation ok b a := (sf_ok b (Prim2SF a)).
Abbreviation top b a := (sf_top b (Prim2SF a)).

Lemma fin_any (b : bool) (f : spec_float) : sf_fin b f -> sf_any b f.
Proof. destruct f; simpl; auto. Qed.

Lemma is_finite_fin (a : float) :
  PrimFloat.is_finite a = true -> sf_fin false (Prim2SF a).
Proof.
  unfold PrimFloat.is_finite, PrimFloat.is_nan, PrimFloat.is_infinity.
  rewrite !eqb_spec, abs_spec.
  destruct (Prim2SF a) as [s | [] | | s m e]; simpl; auto.
Qed.

Lemma zero_ok (b : bool) : ok b (@s0 float _).
Proof. vm_compute. reflexivity. Qed.

Lemma fold_add_ok (b : bool) (l : list float) (a : float) :
  Forall (fun v => ok b v) l -> ok b a -> ok b (fold_left PrimFloat.add l a).
Proof.
  intros Hl. revert a. induction Hl as [| v l Hv _ IH]; intros a Ha;
    [exact Ha |].
  simpl. apply IH. rewrite add_spec. now apply add_ok.
Qed.

Lemma fold_add_top_acc (b : bool) (l : list float) (a : float) :
  Forall (fun v => ok b v) l -> top b a -> top b (fold_left PrimFloat.add l a).
Proof.
  intros Hl. revert a. induction Hl as [| v l Hv _ IH]; intros a Ha;
    [exact Ha |].
  simpl. apply IH. rewrite add_spec. now apply add_top_l.
Qed.

Lemma fold_add_top (b : bool) (l : list float) (a : float) :
  Forall (fun v => ok b v) l -> Exists (fun v => top b v) l -> ok b a ->
  top b (fold_left PrimFloat.add l a).
Proof.
  intros Hl Hex. revert a Hl.
  induction Hex as [v l Hv | v l _ IH]; intros a Hl Ha;
    inversion Hl as [| ? ? Hv' Hl']; subst; simpl.
  - apply fold_add_top_acc; [exact Hl' |].
    rewrite add_spec. now apply add_top_r.
  - apply IH; [exact Hl' |]. rewrite add_spec. now apply add_ok.
Qed.

Lemma jnp_sum_ok (b : bool) (l : list float) :
  Forall (fun v => ok b v) l -> ok b (jnp_sum l).
Proof. intros Hl. apply fold_add_ok; [exact Hl | apply zero_ok]. Qed.

Lemma jnp_sum_top (b : bool) (l : list float) :
  Forall (fun v => ok b v) l -> Exists (fun v => top b v) l ->
  top b (jnp_sum l).
Proof. intros Hl Hex. apply fold_add_top; [exact Hl | exact Hex | apply zero_ok]. Qed.

Lemma square_ok (b : bool) (l : list float) :
  Forall (fun a => sf_any b (Prim2SF a)) l ->
  Forall (fun v => ok b v) (square l).
Proof.
  intros Hl. unfold square. apply Forall_map.
  eapply Forall_impl; [| exact Hl].
  intros a Ha. cbn [smul float_Scalar]. rewrite mul_spec.
  now apply mul_self_ok.
Qed.

Lemma diff_any (b : bool) (r r' : list float) :
  Forall (fun a => sf_fin b (Prim2SF a)) r ->
  Forall (fun a => sf_fin b (Prim2SF a)) r' ->
  Forall (fun a => sf_any b (Prim2SF a)) (zip_with ssub r r').
Proof.
  intros Hr. revert r'. induction Hr as [| a r Ha _ IH]; intros r' Hr';
    [constructor |].
  destruct Hr' as [| a' r' Ha' Hr']; [constructor |].
  simpl. constructor; [| now apply IH].
  cbn [ssub float_Scalar]. rewrite sub_spec. now apply sub_any.
Qed.

Lemma norm_ok (b : bool) (v : list float) :
  Forall (fun a => sf_any b (Prim2SF a)) v -> ok b (norm v).
Proof.
  intros Hv. unfold norm. cbn [ssqrt float_Scalar]. rewrite sqrt_spec.
  apply sqrt_ok, jnp_sum_ok, square_ok, Hv.
Qed.

Lemma recip_prim_ok (b : bool) (r : float) :
  ok b r -> ok b (sdiv s1 r).
Proof.
  intros Hr. cbn [sdiv s1 float_Scalar]. rewrite div_spec.
  now apply recip_ok.
Qed.

(** A non-negative float that compares equal to zero is [+0], and its
    reciprocal is [+infinity]. *)
Lemma recip_of_zero (b : bool) (r : float) :
  ok b r -> PrimFloat.eqb r PrimFloat.zero = true -> top b (sdiv s1 r).
Proof.
  intros Hr Hz. cbn [sdiv s1 float_Scalar]. rewrite div_spec.
  rewrite eqb_spec in Hz.
  replace (Prim2SF PrimFloat.zero) with (S754_zero false) in Hz
    by (vm_compute; reflexivity).
  destruct (Prim2SF r) as [s | s | | s m e]; simpl in Hr.
  - subst s. rewrite recip_zero by reflexivity. exact I.
  - destruct s; discriminate.
  - discriminate.
  - destruct s; discriminate.
Qed.

Lemma top_value (e : float) :
  top true e -> e = PrimFloat.infinity \/ e = PrimFloat.nan.
Proof.
  intros Ht. rewrite <- (SF2Prim_Prim2SF e).
  destruct (Prim2SF e) as [s | [] | | s m ex]; simpl in Ht; try contradiction.
  - now left.
  - now right.
Qed.

Lemma top_infinity (e : float) : top false e -> e = PrimFloat.infinity.
Proof.
  intros Ht. rewrite <- (SF2Prim_Prim2SF e).
  destruct (Prim2SF e) as [s | [] | | s m ex]; simpl in Ht;
    try contradiction; try discriminate.
  reflexivity.
Qed.

Lemma coords_ok_true (x : mat float) : coords_ok true x.
Proof.
  unfold coords_ok. apply Forall_forall. intros r _.
  apply Forall_forall. intros a _. destruct (Prim2SF a); simpl; auto.
Qed.

Lemma coords_ok_finite (x : mat float) :
  Forall (Forall (fun a => PrimFloat.is_finite a = true)) x ->
  coords_ok false x.
Proof.
  intros Hx. unfold coords_ok. eapply Forall_impl; [| exact Hx].
  intros r Hr. eapply Forall_impl; [| exact Hr].
  intros a. apply is_finite_fin.
Qed.

Lemma row_ok (b : bool) (x : mat float) (i : nat) :
  coords_ok b x -> Forall (fun a => sf_fin b (Prim2SF a)) (nth i x []).
Proof.
  intros Hx. destruct (Nat.lt_ge_cases i (length x)) as [Hi | Hi].
  - unfold coords_ok in Hx. rewrite Forall_forall in Hx.
    apply Hx, nth_In, Hi.
  - rewrite nth_overflow by exact Hi. constructor.
Qed.

Lemma distance_ok (b : bool) (x : mat float) (i j : nat) :
  coords_ok b x -> ok b (norm (zip_with ssub (nth i x []) (nth j x []))).
Proof. intros Hx. apply norm_ok, diff_any; apply row_ok, Hx. Qed.

(** With a pair at distance zero the value is [+infinity], or NaN when
    NaN is allowed. *)
Lemma energy_fn_top (b : bool) (x : mat float) (n dim i j : nat) :
  coords_ok b x -> shape x n dim -> i < j < n ->
  PrimFloat.eqb (norm (zip_with ssub (nth i x []) (nth j x [])))
                PrimFloat.zero = true ->
  exists e, energy_fn x n dim = Some e /\ top b e.
Proof.
  intros Hx [Hn Hrows] Hij Hz. unfold energy_fn.
  rewrite (reshape_concat n dim x Hn Hrows). cbv zeta.
  eexists. split; [reflexivity |].
  cbn [sadd float_Scalar]. rewrite add_spec. apply add_top_r.
  - apply jnp_sum_ok, square_ok. apply Forall_concat.
    eapply Forall_impl; [| exact Hx].
    intros r Hr. eapply Forall_impl; [| exact Hr]. intros a. apply fin_any.
  - rewrite map_map. apply jnp_sum_top.
    + apply Forall_map, Forall_forall. intros p _.
      apply recip_prim_ok, distance_ok, Hx.
    + apply Exists_exists. exists (sdiv s1 (norm (zip_with ssub (nth i x []) (nth j x [])))).
      split.
      * apply in_map_iff. exists (i, j). split; [reflexivity |].
        apply triu_indices_In, Hij.
      * apply recip_of_zero; [apply distance_ok, Hx | exact Hz].
Qed.

(** C9. Evaluating [energy_fn] in binary64 on a configuration of the
    declared shape that has a pair of particles at distance exactly zero
    raises nothing: it returns a float, and that float is [+infinity] (the
    IEEE value of [1 / 0], carried through the sums without clamping)
    whenever the coordinates are finite numbers; only coordinates that
    are themselves infinite or NaN can turn it into NaN. *)
Theorem energy_fn_coincident (x : mat float) (n dim i j : nat) :
  shape x n dim -> i < j < n ->
  PrimFloat.eqb (norm (zip_with ssub (nth i x []) (nth j x [])))
                PrimFloat.zero = true ->
  exists e,
    energy_fn x n dim = Some e
    /\ (e = PrimFloat.infinity \/ e = PrimFloat.nan)
    /\ (Forall (Forall (fun a => PrimFloat.is_finite a = true)) x ->
        e = PrimFloat.infinity).
Proof.
  intros Hs Hij Hz.
  destruct (energy_fn_top true x n dim i j (coords_ok_true x) Hs Hij Hz)
    as (e & He & Ht).
  exists e. split; [exact He |]. split; [now apply top_value |].
  intros Hfin.
  destruct (energy_fn_top false x n dim i j (coords_ok_finite x Hfin)
                          Hs Hij Hz) as (e' & He' & Ht').
  rewrite He in He'. injection He' as <-. now apply top_infinity.
Qed.

(** The scenario of the specification: two particles on a line, both at
    the origin. *)
Lemma energy_fn_coincident_witness :
  shape (A := float) [[0%float]; [0%float]] 2 1
  /\ energy_fn [[0%float]; [0%float]] 2 1 = Some PrimFloat.infinity.
Proof.
  assert (Hs : shape (A := float) [[0%float]; [0%float]] 2 1)
    by (split; [reflexivity | repeat constructor]).
  split; [exact Hs |].
  destruct (energy_fn_coincident [[0%float]; [0%float]] 2 1 0 1 Hs
              ltac:(lia) eq_refl) as (e & He & _ & Hinf).
  rewrite He. f_equal. apply Hinf. repeat constructor.
Defined.

End Binary64.

(* ================================================================== *)
(** * Part III: further properties of the notebooks *)
(* ================================================================== *)

(** ** The Hamiltonian over the reals: sign, reflection, few particles *)

Section EnergyReal.
Import Hamiltonian.
Local Open Scope R_scope.

Lemma big_sum_pos (f : nat -> R) (n k : nat) :
  (forall i, (i < n)%nat -> 0 <= f i) -> (k < n)%nat -> 0 < f k ->
  0 < big_sum f n.
Proof.
  induction n as [| n IH]; intros Hf Hk Hpos; [lia |]. simpl.
  assert (H0 : 0 <= big_sum f n) by (apply big_sum_nonneg; auto).
  destruct (Nat.eq_dec k n) as [-> | Hne]; [lra |].
  assert (0 < big_sum f n) by (apply IH; auto; lia).
  specialize (Hf n ltac:(lia)). lra.
Qed.

Lemma distance_nonneg (x : mat R) (dim i j : nat) : 0 <= distance x dim i j.
Proof. unfold distance. apply sqrt_pos. Qed.

Lemma confinement_nonneg (x : mat R) (n dim : nat) : 0 <= confinement x n dim.
Proof.
  unfold confinement. apply big_sum_nonneg. intros i _.
  apply big_sum_nonneg. intros d _. nra.
Qed.

(** X3. On a well-shaped configuration of distinct particles the energy
    is at least the confinement term, which is non-negative; with two or
    more particles it is strictly positive. *)
Theorem energy_fn_positive (x : mat R) (n dim : nat) :
  shape x n dim ->
  (forall i j : nat, (i < j < n)%nat -> distance x dim i j <> 0) ->
  exists e,
    energy_fn x n dim = Some e
    /\ 0 <= confinement x n dim <= e
    /\ ((2 <= n)%nat -> 0 < e).
Proof.
  intros Hs Hd. exists (confinement x n dim + interaction x n dim).
  split; [apply energy_fn_hamiltonian, Hs |].
  assert (Hterm : forall i j, (i < n)%nat -> (j < n)%nat ->
            0 <= (if (i <? j)%nat then 1 / distance x dim i j else 0)).
  { intros i j Hi Hj. destruct (Nat.ltb_spec i j) as [Hij | _]; [| lra].
    pose proof (distance_nonneg x dim i j).
    pose proof (Hd i j ltac:(lia)).
    apply Rlt_le, Rdiv_lt_0_compat; lra. }
  assert (Hrow : forall i, (i < n)%nat ->
            0 <= big_sum (fun j => if (i <? j)%nat
                                   then 1 / distance x dim i j else 0) n).
  { intros i Hi. apply big_sum_nonneg. intros j Hj. now apply Hterm. }
  pose proof (confinement_nonneg x n dim) as Hc.
  assert (Hi0 : 0 <= interaction x n dim)
    by (unfold interaction; apply big_sum_nonneg; exact Hrow).
  split; [lra |].
  intros Hn.
  assert (0 < interaction x n dim); [| lra].
  unfold interaction. apply (big_sum_pos _ n 0); [exact Hrow | lia |].
  apply (big_sum_pos _ n 1); [intros j Hj; apply Hterm; lia | lia |].
  cbn [Nat.ltb Nat.leb].
  pose proof (distance_nonneg x dim 0 1).
  pose proof (Hd 0%nat 1%nat ltac:(lia)).
  apply Rdiv_lt_0_compat; lra.
Qed.

Lemma energy_fn_positive_witness :
  exists e, energy_fn (A := R) [[0]; [1]] 2 1 = Some e /\ 0 < e.
Proof.
  destruct (energy_fn_positive [[0]; [1]] 2 1 pair01_shape pair01_distance)
    as (e & He & _ & Hpos).
  exists e. split; [exact He | apply Hpos; lia].
Defined.

Lemma square_opp (r : list R) :
  jnp_sum (square (map Ropp r)) = jnp_sum (square r).
Proof.
  unfold square. rewrite map_map. f_equal. apply map_ext.
  intros a. cbn [smul R_Scalar]. ring.
Qed.

Lemma coulomb_opp (a b : list R) :
  coulomb (map Ropp a) (map Ropp b) = coulomb a b.
Proof.
  unfold coulomb, norm. do 2 f_equal.
  revert b. induction a as [| u a IH]; intros [| v b]; try reflexivity.
  cbn [map zip_with square].
  fold (square (zip_with ssub (map Ropp a) (map Ropp b))).
  fold (square (zip_with ssub a b)).
  rewrite !jnp_sum_cons, IH. cbn [smul ssub R_Scalar]. ring.
Qed.

Lemma pair_sum_map (g : list R -> list R -> R) (f : list R -> list R)
      (x : mat R) :
  pair_sum g (map f x) = pair_sum (fun a b => g (f a) (f b)) x.
Proof.
  induction x as [| a x IH]; [reflexivity |].
  cbn [map pair_sum]. now rewrite IH, map_map.
Qed.

Lemma pair_sum_ext (g h : list R -> list R -> R) (x : mat R) :
  (forall a b, g a b = h a b) -> pair_sum g x = pair_sum h x.
Proof.
  intros E. induction x as [| a x IH]; [reflexivity |].
  cbn [pair_sum]. rewrite IH. do 2 f_equal. apply map_ext. intros b. apply E.
Qed.

(** X4. The energy is invariant under the point reflection that negates
    every coordinate of every particle. *)
Theorem energy_fn_reflection (x : mat R) (n dim : nat) :
  shape x n dim ->
  energy_fn (map (map Ropp) x) n dim = energy_fn x n dim
  /\ exists e, energy_fn x n dim = Some e.
Proof.
  intros Hs. split; [| eexists; apply energy_fn_hamiltonian, Hs].
  assert (Hs' : shape (map (map Ropp) x) n dim).
  { destruct Hs as [Hn Hrows]. split; [now rewrite length_map |].
    apply Forall_map. eapply Forall_impl; [| exact Hrows].
    intros r Hr. now rewrite length_map. }
  rewrite (energy_fn_struct _ n dim Hs), (energy_fn_struct _ n dim Hs').
  rewrite map_map, pair_sum_map.
  rewrite (pair_sum_ext _ coulomb x coulomb_opp).
  do 3 f_equal. apply map_ext. intros r. apply square_opp.
Qed.

Lemma energy_fn_reflection_witness :
  energy_fn (A := R) [[-0]; [-1]] 2 1 = energy_fn [[0]; [1]] 2 1.
Proof.
  exact (proj1 (energy_fn_reflection [[0]; [1]] 2 1 pair01_shape)).
Defined.

(** X5. With fewer than two particles no pair is formed: the energy is the
    confinement term alone. *)
Theorem energy_fn_no_pairs (x : mat R) (n dim : nat) :
  (n <= 1)%nat -> shape x n dim ->
  energy_fn x n dim = Some (confinement x n dim)
  /\ triu_indices n 1 = [].
Proof.
  intros Hn Hs. rewrite (energy_fn_hamiltonian x n dim Hs).
  assert (Hz : interaction x n dim = 0).
  { unfold interaction.
    destruct n as [| [| n]]; [| | lia]; cbn [big_sum Nat.ltb Nat.leb]; lra. }
  rewrite Hz, Rplus_0_r. split; [reflexivity |].
  destruct n as [| [| n]]; [reflexivity | reflexivity | lia].
Qed.

Lemma energy_fn_no_pairs_witness :
  energy_fn (A := R) [[3; 4]] 1 2 = Some (confinement [[3; 4]] 1 2)
  /\ triu_indices 1 1 = [].
Proof.
  apply (energy_fn_no_pairs [[3; 4]] 1 2).
  - lia.
  - split; [reflexivity | repeat constructor].
Defined.

End EnergyReal.

(** ** VariationalEstimator over the reals: relations between the
    reported statistics *)

Section EstimatorStatistics.
Local Open Scope R_scope.

Variable params : Type.
Variable flow_apply : params -> mat R -> mat R.
Variable norm_logpdf : R -> R.
Variable jacfwd : (list R -> list R) -> list R -> mat R.
Variable slogdet : mat R -> R * R.

Local Abbreviation logp :=
  (Flow.logp flow_apply norm_logpdf jacfwd slogdet).
Local Abbreviation observable_and_lossfn :=
  (Flow.observable_and_lossfn flow_apply norm_logpdf jacfwd slogdet).

Lemma sum_free_energy (beta : R) (L E : list R) :
  length L = length E ->
  jnp_sum (zip_with (fun l e => l / beta + e) L E)
  = jnp_sum L / beta + jnp_sum E.
Proof.
  revert E. induction L as [| l L IH]; intros [| e E] Hlen; try discriminate;
    cbn [zip_with].
  - rewrite !jnp_sum_nil. unfold Rdiv. ring.
  - rewrite !jnp_sum_cons, IH by (now injection Hlen). unfold Rdiv. ring.
Qed.

Lemma jnp_sum_opp (L : list R) : jnp_sum (map Ropp L) = - jnp_sum L.
Proof.
  induction L as [| l L IH]; cbn [map].
  - rewrite jnp_sum_nil. ring.
  - rewrite !jnp_sum_cons, IH. ring.
Qed.

Lemma logp_lengths (z : list (mat R)) (p : params) :
  length (fst (fst (fst (logp z p)))) = length z.
Proof. unfold Flow.logp. cbn [fst]. now rewrite !length_map. Qed.

(** X6. The reported mean free energy is the mean energy minus the mean
    entropy over [beta]. *)
Theorem free_energy_is_energy_minus_entropy
        (batch n dim : nat) (beta : R) (p : params) (z : list (mat R)) :
  (forall zb, In zb z -> shape (flow_apply p zb) n dim) ->
  exists objective obs,
    observable_and_lossfn batch n dim beta p z = Some (objective, obs)
    /\ Flow.F_mean obs = Flow.E_mean obs - Flow.S_mean obs / beta.
Proof.
  intros Hshape.
  destruct (observable_and_lossfn_eval params flow_apply norm_logpdf jacfwd
              slogdet batch n dim beta p z Hshape)
    as (Eloc & _ & HL & Hval).
  pose proof (logp_lengths z p) as Hlp.
  destruct (logp z p) as [[[logpx logqz] logjacdet] x]. cbn [fst] in Hlp.
  do 2 eexists. split; [exact Hval |].
  cbn [Flow.F_mean Flow.E_mean Flow.S_mean]. unfold jnp_mean.
  rewrite zip_with_length by lia.
  rewrite sum_free_energy by lia.
  cbn [sdiv of_int R_Scalar]. rewrite Hlp, HL. unfold Rdiv. ring.
Qed.

Lemma jnp_std_nonneg (v : list R) : 0 <= jnp_std v.
Proof. unfold jnp_std. cbn [ssqrt R_Scalar]. apply sqrt_pos. Qed.

Lemma jnp_std_singleton (a : R) : jnp_std [a] = 0.
Proof.
  unfold jnp_std, jnp_mean. cbn [map length].
  rewrite !jnp_sum_cons, !jnp_sum_nil.
  cbn [ssqrt sdiv ssub smul of_int R_Scalar INR].
  replace ((a - (a + 0) / 1) * (a - (a + 0) / 1) + 0) with 0 by (field).
  replace (0 / 1) with 0 by field. apply sqrt_0.
Qed.

Lemma standard_error_nonneg (v : list R) (batch : nat) :
  (0 < batch)%nat -> 0 <= jnp_std v / sqrt (INR batch).
Proof.
  intros Hb. pose proof (jnp_std_nonneg v).
  assert (0 < sqrt (INR batch)) by (apply sqrt_lt_R0, lt_0_INR, Hb).
  apply Rmult_le_pos; [assumption |]. apply Rlt_le, Rinv_0_lt_compat.
  assumption.
Qed.

(** X7. With a positive batch size the three reported standard errors are
    non-negative, and a batch of a single sample reports all three as
    zero. *)
Theorem reported_errors_nonneg
        (batch n dim : nat) (beta : R) (p : params) (z : list (mat R)) :
  (forall zb, In zb z -> shape (flow_apply p zb) n dim) ->
  (0 < batch)%nat ->
  exists objective obs,
    observable_and_lossfn batch n dim beta p z = Some (objective, obs)
    /\ 0 <= Flow.F_std obs /\ 0 <= Flow.E_std obs /\ 0 <= Flow.S_std obs
    /\ (length z = 1%nat ->
        Flow.F_std obs = 0 /\ Flow.E_std obs = 0 /\ Flow.S_std obs = 0).
Proof.
  intros Hshape Hb.
  destruct (observable_and_lossfn_eval params flow_apply norm_logpdf jacfwd
              slogdet batch n dim beta p z Hshape)
    as (Eloc & _ & HL & Hval).
  pose proof (logp_lengths z p) as Hlp.
  destruct (logp z p) as [[[logpx logqz] logjacdet] x]. cbn [fst] in Hlp.
  do 2 eexists. split; [exact Hval |].
  cbn [Flow.F_std Flow.E_std Flow.S_std].
  split; [now apply standard_error_nonneg |].
  split; [now apply standard_error_nonneg |].
  split; [now apply standard_error_nonneg |].
  intros Hz. rewrite Hz in Hlp, HL.
  destruct logpx as [| l [| ]]; try discriminate.
  destruct Eloc as [| e [| ]]; try discriminate.
  cbn [zip_with map]. rewrite !jnp_std_singleton.
  unfold Rdiv. rewrite !Rmult_0_l. repeat split.
Qed.

End EstimatorStatistics.

Section EstimatorStatisticsExamples.
Local Open Scope R_scope.

Lemma free_energy_is_energy_minus_entropy_witness :
  exists objective obs,
    Flow.observable_and_lossfn Sample.flow_apply Sample.norm_logpdf
      Sample.jacfwd Sample.slogdet 1 2 1 10 tt Sample.z
    = Some (objective, obs)
    /\ Flow.F_mean obs = Flow.E_mean obs - Flow.S_mean obs / 10.
Proof.
  exact (free_energy_is_energy_minus_entropy unit Sample.flow_apply
           Sample.norm_logpdf Sample.jacfwd Sample.slogdet 1 2 1 10 tt Sample.z
           sample_flow_shape).
Defined.

Lemma reported_errors_nonneg_witness :
  exists objective obs,
    Flow.observable_and_lossfn Sample.flow_apply Sample.norm_logpdf
      Sample.jacfwd Sample.slogdet 1 2 1 10 tt Sample.z
    = Some (objective, obs)
    /\ Flow.F_std obs = 0 /\ Flow.E_std obs = 0 /\ Flow.S_std obs = 0.
Proof.
  destruct (reported_errors_nonneg unit Sample.flow_apply Sample.norm_logpdf
              Sample.jacfwd Sample.slogdet 1 2 1 10 tt Sample.z sample_flow_shape
              ltac:(lia))
    as (objective & obs & Hval & _ & _ & _ & Hz).
  exists objective, obs. split; [exact Hval | exact (Hz eq_refl)].
Defined.

End EstimatorStatisticsExamples.

(** ** TrainingLoop: the statistics series and the schedule of keys *)

Section TrainingTrace.
Context {A : Type} `{Scalar A}.

Variable params : Type.
Variable flow_apply : params -> mat A -> mat A.
Variable norm_logpdf : A -> A.
Variable jacfwd : (list A -> list A) -> list A -> mat A.
Variable slogdet : mat A -> A * A.
Variable key : Type.
Variable rng : Random key A.
Variable opt_state grads : Type.
Variable grad_lossfn : params -> list (mat A) -> grads.
Variable apply_update : grads -> opt_state -> params -> params * opt_state.

Local Abbreviation train_iter :=
  (Flow.train_iter flow_apply norm_logpdf jacfwd slogdet rng
                   grad_lossfn apply_update).
Local Abbreviation train :=
  (Flow.train flow_apply norm_logpdf jacfwd slogdet rng
              grad_lossfn apply_update).

Variables (batch n dim : nat) (beta : A).
Hypothesis flow_shape : forall p zb, shape (flow_apply p zb) n dim.

Lemma train_iter_row (s : Flow.train_state A params key opt_state) :
  exists s' row,
    train_iter batch n dim beta s = Some s'
    /\ Flow.loss_history s' = Flow.loss_history s ++ [row]
    /\ length row = 6
    /\ Flow.ts_key s' = split rng (Flow.ts_key s) 2 0
    /\ Flow.ts_calls s'
       = Flow.ts_calls s ++ [CallSplit (Flow.ts_key s);
                             CallNormal (split rng (Flow.ts_key s) 2 0)].
Proof.
  unfold Flow.train_iter, Flow.update.
  destruct (observable_and_lossfn_total params flow_apply norm_logpdf jacfwd
              slogdet batch n dim beta flow_shape (Flow.ts_params s)
              (normal3 rng (split rng (Flow.ts_key s) 2 0) batch n dim))
    as (datas & ->).
  destruct (apply_update _ _ _) as [p' os'].
  do 2 eexists. split; [reflexivity |]. cbn.
  split; [reflexivity |]. repeat split.
Qed.

(** X8. The training loop never fails when the map returns arrays of the
    declared shape, and it only appends to the statistics series: after
    [iters] iterations the series is the old one followed by exactly
    [iters] rows of six numbers; with no iteration the state is the one it
    started from. *)
Theorem training_history (iters : nat)
        (s : Flow.train_state A params key opt_state) :
  exists s' rows,
    train iters batch n dim beta s = Some s'
    /\ Flow.loss_history s' = Flow.loss_history s ++ rows
    /\ length rows = iters
    /\ Forall (fun row => length row = 6) rows
    /\ (iters = 0 -> s' = s).
Proof.
  revert s. induction iters as [| iters IH]; intros s.
  - exists s, []. cbn. rewrite app_nil_r. repeat split. constructor.
  - destruct (train_iter_row s) as (s1 & row & Hiter & Hh & Hrow & _).
    destruct (IH s1) as (s' & rows & Htrain & Hh' & Hlen & Hall & _).
    exists s', (row :: rows). cbn [Flow.train]. rewrite Hiter.
    split; [exact Htrain |].
    split; [rewrite Hh', Hh, <- app_assoc; reflexivity |].
    split; [simpl; now rewrite Hlen |].
    split; [now constructor | discriminate].
Qed.

Lemma carried_key_shift (seed : key) (i : nat) :
  carried_key rng (split rng seed 2 0) i = carried_key rng seed (S i).
Proof. unfold carried_key. now rewrite Nat.iter_succ_r. Qed.

Lemma training_calls_shift (seed : key) (iters : nat) :
  training_calls rng (split rng seed 2 0) 0 iters
  = training_calls rng seed 1 iters.
Proof.
  unfold training_calls. rewrite <- seq_shift.
  generalize (seq 0 iters). intros l.
  induction l as [| i l IH]; [reflexivity |].
  cbn [map flat_map]. now rewrite IH, !carried_key_shift.
Qed.

(** X9. The keys of the training loop depend on the seed and the iteration
    index alone, not on parameters, optimiser state or data: after [iters]
    iterations the carried key is the [iters]-fold first half of the seed's
    splits, and iteration [i] has split the [i]-th carried key and drawn
    its latent batch with the [(i+1)]-th. *)
Theorem training_key_schedule (iters : nat)
        (s : Flow.train_state A params key opt_state) :
  exists s',
    train iters batch n dim beta s = Some s'
    /\ Flow.ts_key s' = carried_key rng (Flow.ts_key s) iters
    /\ Flow.ts_calls s'
       = Flow.ts_calls s ++ training_calls rng (Flow.ts_key s) 0 iters.
Proof.
  revert s. induction iters as [| iters IH]; intros s.
  - exists s. cbn. rewrite app_nil_r. repeat split.
  - destruct (train_iter_row s) as (s1 & row & Hiter & _ & _ & Hk & Hc).
    destruct (IH s1) as (s' & Htrain & Hk' & Hc').
    exists s'. cbn [Flow.train]. rewrite Hiter.
    split; [exact Htrain |].
    rewrite Hk in Hk', Hc'. rewrite carried_key_shift in Hk'.
    split; [exact Hk' |].
    rewrite Hc', Hc, training_calls_shift, <- app_assoc.
    unfold training_calls. cbn [seq flat_map app carried_key Nat.iter].
    reflexivity.
Qed.

End TrainingTrace.

Section TrainingTraceExamples.
Local Open Scope R_scope.

Lemma const_flow_shape : forall p zb, shape (Sample.const_flow p zb) 2 1.
Proof. intros p zb. exact pair01_shape. Qed.

Lemma training_history_witness :
  exists s' rows,
    Flow.train Sample.const_flow Sample.norm_logpdf Sample.jacfwd
               Sample.slogdet Sample.rng Sample.grad_lossfn
               Sample.apply_update 3 1 2 1 10 Sample.train_init = Some s'
    /\ Flow.loss_history s' = rows /\ length rows = 3%nat.
Proof.
  destruct (training_history unit Sample.const_flow Sample.norm_logpdf
              Sample.jacfwd Sample.slogdet nat Sample.rng unit unit
              Sample.grad_lossfn Sample.apply_update 1 2 1 10
              const_flow_shape 3 Sample.train_init)
    as (s' & rows & Htrain & Hh & Hlen & _).
  exists s', rows. split; [exact Htrain |]. split; [exact Hh | exact Hlen].
Defined.

Lemma training_key_schedule_witness :
  exists s',
    Flow.train Sample.const_flow Sample.norm_logpdf Sample.jacfwd
               Sample.slogdet Sample.rng Sample.grad_lossfn
               Sample.apply_update 3 1 2 1 10 Sample.train_init = Some s'
    /\ Flow.ts_key s' = 343%nat
    /\ Flow.ts_calls s'
       = [CallSplit 42%nat; CallNormal 85%nat;
          CallSplit 85%nat; CallNormal 171%nat;
          CallSplit 171%nat; CallNormal 343%nat].
Proof.
  exact (training_key_schedule unit Sample.const_flow Sample.norm_logpdf
           Sample.jacfwd Sample.slogdet nat Sample.rng unit unit
           Sample.grad_lossfn Sample.apply_update 1 2 1 10
           const_flow_shape 3 Sample.train_init).
Defined.

End TrainingTraceExamples.

(** ** MCMCSampler: counting accepts *)

Lemma count_true_le (c : list bool) : Mcmc.count_true c <= length c.
Proof. unfold Mcmc.count_true. apply filter_length_le. Qed.

Lemma fori_loop_indexed {S : Type} (P : nat -> S -> Prop)
      (body : nat -> S -> option S) :
  (forall i t s, P t s -> exists s', body i s = Some s' /\ P (Datatypes.S t) s') ->
  forall count lower t init, P t init ->
    exists s, Mcmc.fori_loop_from lower count body init = Some s
              /\ P (count + t) s.
Proof.
  intros Hbody. induction count as [| count IH]; intros lower t init Hinit.
  - exists init. split; [reflexivity | exact Hinit].
  - simpl. destruct (Hbody lower t init Hinit) as (s' & -> & Hs').
    destruct (IH (Datatypes.S lower) (Datatypes.S t) s' Hs') as (s & Hs & HP).
    exists s. split; [exact Hs |]. now rewrite Nat.add_succ_r in HP.
Qed.

Section StepCounts.
Context {A : Type} `{Scalar A}.
Local Open Scope scalar_scope.

Variable key : Type.
Variable rng : Random key A.
Variable exp : A -> A.

(** A step on a state that satisfies the invariant, with the batch size
    and the increment of the accept counter made explicit. *)
Lemma step_counts (beta : A) (n dim : nat) (w : A) (i : nat)
      (x : list (mat A)) (logp : list A) (k : key) (na : A) :
  chain_invariant beta n dim (x, logp, k, na) ->
  exists x' logp' accept,
    Mcmc.step rng exp (fun x => Mcmc.logp beta x n dim) w i (x, logp, k, na)
    = Some (x', logp', split rng k 3 0, na + of_int (Mcmc.count_true accept))
    /\ chain_invariant beta n dim
         (x', logp', split rng k 3 0, na + of_int (Mcmc.count_true accept))
    /\ length x' = length x
    /\ length accept = length x.
Proof.
  intros Hinv.
  apply (invariant_vmap key) in Hinv as [Hs Hv].
  pose proof (vmap_length _ _ _ Hv) as Hlen.
  destruct (vmap_total (boltzmann beta n dim) (step_proposal rng w x k))
    as (lp & Hlp & Llp).
  { intros xp Hin. apply boltzmann_total.
    now apply (step_proposal_shape key rng w x k n dim Hs). }
  rewrite step_proposal_length in Llp.
  pose proof (step_accept_length key rng exp x k lp logp Llp Hlen) as Lacc.
  exists (Mcmc.where_ (step_accept rng exp x k lp logp)
                      (step_proposal rng w x k) x),
         (Mcmc.where_ (step_accept rng exp x k lp logp) lp logp),
         (step_accept rng exp x k lp logp).
  split.
  - exact (step_eval key rng exp (boltzmann beta n dim) w i x logp k na lp
                     Hlen Hlp).
  - split; [| split; [| exact Lacc]].
    + apply (invariant_vmap key). split.
      * intros xb Hin. apply where_In in Hin as [Hin | Hin].
        -- now apply (step_proposal_shape key rng w x k n dim Hs).
        -- now apply Hs.
      * now apply vmap_where.
    + rewrite where_length; rewrite ?step_proposal_length; lia.
Qed.

End StepCounts.

Section SamplerReal.
Local Open Scope R_scope.

Variable key : Type.
Variable rng : Random key R.

Lemma step_counted (exp : R -> R) (beta : R) (n dim b : nat) (w : R)
      (i t : nat) (st : Mcmc.state R key) :
  counted beta n dim b t st ->
  exists st',
    Mcmc.step rng exp (fun x => Mcmc.logp beta x n dim) w i st = Some st'
    /\ counted beta n dim b (S t) st'.
Proof.
  destruct st as [[[x logp] k] na]. intros (Hinv & Hb & m & Hm & Hle).
  cbn [fst snd] in Hb, Hm. subst na.
  destruct (step_counts key rng exp beta n dim w i x logp k (INR m) Hinv)
    as (x' & logp' & accept & Hstep & Hinv' & Hx' & Hacc).
  eexists. split; [exact Hstep |].
  split; [exact Hinv' |]. cbn [fst snd]. split; [lia |].
  exists (m + Mcmc.count_true accept)%nat. split.
  - cbn [sadd of_int R_Scalar]. now rewrite plus_INR.
  - pose proof (count_true_le accept). simpl. lia.
Qed.

(** [mcmc] on well-shaped chains: the rate it returns is a whole number of
    accepts, at most [mc_steps * batch], over [mc_steps * batch]. *)
Lemma mcmc_counted_result (exp : R -> R) (beta : R) (n dim : nat) (w : R)
      (x_init : list (mat R)) (k : key) (mc_steps : nat) :
  (forall xb, In xb x_init -> shape xb n dim) ->
  exists x (m : nat),
    Mcmc.mcmc rng exp (fun x => Mcmc.logp beta x n dim) x_init k mc_steps w
    = Some (x, INR m / INR (mc_steps * length x))
    /\ (m <= mc_steps * length x)%nat
    /\ length x = length x_init
    /\ (forall xb, In xb x -> shape xb n dim).
Proof.
  intros Hs.
  destruct (vmap_total (boltzmann beta n dim) x_init) as (logp_init & Hv & _).
  { intros xb Hin. apply boltzmann_total, Hs, Hin. }
  assert (Hinit : counted beta n dim (length x_init) 0
                          (x_init, logp_init, k, 0)).
  { split; [apply (invariant_vmap key); split; assumption |].
    split; [reflexivity |]. exists 0%nat. split; [reflexivity | lia]. }
  destruct (fori_loop_indexed (counted beta n dim (length x_init))
              (Mcmc.step rng exp (fun x => Mcmc.logp beta x n dim) w)
              (fun i t st => step_counted exp beta n dim (length x_init)
                                          w i t st)
              (mc_steps - 0) 0 0 _ Hinit)
    as ([[[x logp] kf] na] & Hloop & Hinv & Hb & m & Hm & Hle).
  cbn [fst snd] in Hb, Hm. subst na.
  exists x, m. split.
  - unfold Mcmc.mcmc.
    change (Mcmc.logp beta x_init n dim)
      with (vmap (boltzmann beta n dim) x_init).
    rewrite Hv. unfold Mcmc.fori_loop.
    change (@s0 R R_Scalar) with 0. rewrite Hloop. reflexivity.
  - rewrite Nat.add_0_r, Nat.sub_0_r in Hle.
    split; [now rewrite Hb |]. split; [exact Hb |].
    apply (invariant_vmap key) in Hinv as [Hsx _]. exact Hsx.
Qed.

Lemma rate_in_unit_interval (m d : nat) :
  (m <= d)%nat -> (0 < d)%nat -> 0 <= INR m / INR d <= 1.
Proof.
  intros Hle Hpos. apply lt_0_INR in Hpos. apply le_INR in Hle.
  pose proof (pos_INR m). split.
  - apply Rmult_le_pos; [assumption |].
    now apply Rlt_le, Rinv_0_lt_compat.
  - apply (Rmult_le_reg_r (INR d)); [assumption |].
    unfold Rdiv. rewrite Rmult_assoc, Rinv_l by lra. lra.
Qed.

(** X10. On well-shaped chains, with at least one inner step and one
    chain, [mcmc] returns a batch of the size and shape it was given and
    an acceptance rate between 0 and 1. *)
Theorem mcmc_rate_bounds (exp : R -> R) (beta : R) (n dim : nat) (w : R)
        (x_init : list (mat R)) (k : key) (mc_steps : nat) :
  (forall xb, In xb x_init -> shape xb n dim) ->
  (0 < mc_steps)%nat -> x_init <> [] ->
  exists x rate,
    Mcmc.mcmc rng exp (fun x => Mcmc.logp beta x n dim) x_init k mc_steps w
    = Some (x, rate)
    /\ length x = length x_init
    /\ (forall xb, In xb x -> shape xb n dim)
    /\ 0 <= rate <= 1.
Proof.
  intros Hs Hsteps Hne.
  destruct (mcmc_counted_result exp beta n dim w x_init k mc_steps Hs)
    as (x & m & Hm & Hle & Hb & Hsx).
  exists x, (INR m / INR (mc_steps * length x)).
  split; [exact Hm |]. split; [exact Hb |]. split; [exact Hsx |].
  apply rate_in_unit_interval; [exact Hle |].
  rewrite Hb. destruct x_init; [contradiction | simpl; nia].
Qed.

(** One outer iteration on a non-empty batch of well-shaped chains. *)
Lemma sample_iter_report (exp : R -> R) (beta : R) (n dim mc_steps : nat)
      (s : Mcmc.sampler_state R key) :
  (forall xb, In xb (Mcmc.sx s) -> shape xb n dim) ->
  (0 < mc_steps)%nat -> (0 < length (Mcmc.sx s))%nat ->
  exists s' r,
    Mcmc.sample_iter rng exp beta n dim mc_steps s = Some s'
    /\ Mcmc.printed s' = Mcmc.printed s ++ [r]
    /\ 0 <= Mcmc.rep_acc r <= 1
    /\ Mcmc.rep_width r = Mcmc.swidth s
    /\ Mcmc.swidth s' = Mcmc.adapt_width (Mcmc.rep_acc r) (Mcmc.swidth s)
    /\ Mcmc.skey s' = split rng (Mcmc.skey s) 2 0
    /\ length (Mcmc.sx s') = length (Mcmc.sx s)
    /\ (forall xb, In xb (Mcmc.sx s') -> shape xb n dim).
Proof.
  intros Hs Hsteps Hb.
  destruct (mcmc_counted_result exp beta n dim (Mcmc.swidth s) (Mcmc.sx s)
              (split rng (Mcmc.skey s) 2 1) mc_steps Hs)
    as (x & m & Hm & Hle & Hlen & Hsx).
  destruct (batch_energy_total x n dim Hsx) as (energy & He & _).
  unfold Mcmc.sample_iter. rewrite Hm, He.
  do 2 eexists. split; [reflexivity |]. cbn.
  split; [reflexivity |].
  split; [apply rate_in_unit_interval; [exact Hle | rewrite Hlen; nia] |].
  split; [reflexivity |]. split; [reflexivity |]. split; [reflexivity |].
  split; [exact Hlen | exact Hsx].
Qed.

(** X18. The sampling program, started from its initial normal draw with a
    positive batch size and at least one inner step per iteration, never
    fails: after [iters] outer iterations it has printed [iters] reports,
    every reported acceptance rate lies between 0 and 1, the batch still
    has [batch] chains of shape [n x dim], and the carried key is the
    [iters]-fold first half of the seed's splits. *)
Theorem sampling_program (exp : R -> R) (beta : R)
        (n dim mc_steps iters batch : nat) (k : key) (mc_width : R) :
  (0 < mc_steps)%nat -> (0 < batch)%nat ->
  exists s',
    Mcmc.sample_loop rng exp iters beta n dim mc_steps
                     (Mcmc.sample_init rng k batch n dim mc_width) = Some s'
    /\ length (Mcmc.printed s') = iters
    /\ Forall (fun r => 0 <= Mcmc.rep_acc r <= 1) (Mcmc.printed s')
    /\ length (Mcmc.sx s') = batch
    /\ (forall xb, In xb (Mcmc.sx s') -> shape xb n dim)
    /\ Mcmc.skey s' = carried_key rng k iters.
Proof.
  intros Hsteps Hbatch.
  assert (Hgen : forall iters s,
            (forall xb, In xb (Mcmc.sx s) -> shape xb n dim) ->
            length (Mcmc.sx s) = batch ->
            exists s' reports,
              Mcmc.sample_loop rng exp iters beta n dim mc_steps s = Some s'
              /\ Mcmc.printed s' = Mcmc.printed s ++ reports
              /\ length reports = iters
              /\ Forall (fun r => 0 <= Mcmc.rep_acc r <= 1) reports
              /\ length (Mcmc.sx s') = batch
              /\ (forall xb, In xb (Mcmc.sx s') -> shape xb n dim)
              /\ Mcmc.skey s' = carried_key rng (Mcmc.skey s) iters).
  { clear iters. induction iters as [| iters IH]; intros s Hs Hb.
    - exists s, []. cbn [Mcmc.sample_loop length]. rewrite app_nil_r.
      split; [reflexivity |]. split; [reflexivity |].
      split; [reflexivity |]. split; [constructor |].
      split; [exact Hb |]. split; [exact Hs | reflexivity].
    - destruct (sample_iter_report exp beta n dim mc_steps s Hs Hsteps
                                   ltac:(lia))
        as (s1 & r & Hiter & Hp & Hr & _ & _ & Hk & Hlen & Hs1).
      destruct (IH s1 Hs1 ltac:(lia))
        as (s' & reports & Hloop & Hp' & Hn & Hall & Hb' & Hs' & Hk').
      exists s', (r :: reports). cbn [Mcmc.sample_loop]. rewrite Hiter.
      split; [exact Hloop |].
      split; [rewrite Hp', Hp, <- app_assoc; reflexivity |].
      split; [simpl; now rewrite Hn |].
      split; [now constructor |]. split; [exact Hb' |]. split; [exact Hs' |].
      rewrite Hk', Hk. unfold carried_key. now rewrite Nat.iter_succ_r. }
  destruct (Hgen iters (Mcmc.sample_init rng k batch n dim mc_width))
    as (s' & reports & Hloop & Hp & Hn & Hall & Hb & Hs & Hk).
  - cbn [Mcmc.sx Mcmc.sample_init]. apply normal3_shape.
  - cbn [Mcmc.sx Mcmc.sample_init]. apply normal3_length.
  - exists s'. split; [exact Hloop |]. cbn in Hp. rewrite Hp.
    split; [exact Hn |]. split; [exact Hall |]. split; [exact Hb |].
    split; [exact Hs | exact Hk].
Qed.

Lemma exp_ge_1 (t : R) : 0 <= t -> 1 <= exp t.
Proof.
  intros [Ht | <-].
  - rewrite <- exp_0. now apply Rlt_le, exp_increasing.
  - rewrite exp_0. lra.
Qed.

(** X11. With [beta >= 0], a chain whose proposal does not raise the energy
    always moves to it (its draw lying below 1), and stores [-beta] times
    the energy of the proposal. *)
Theorem downhill_accepted (beta : R) (n dim : nat) (w : R) (i : nat)
        (x : list (mat R)) (logp : list R) (k : key) (na : R)
        (c : nat) (e_cur e_prop : R) :
  chain_invariant beta n dim (x, logp, k, na) ->
  0 <= beta ->
  (c < length x)%nat ->
  nth c (step_uniform rng x k) 0 < 1 ->
  energy_fn (nth c x []) n dim = Some e_cur ->
  energy_fn (Chain.propose w (nth c x []) (nth c (step_noise rng x k) []))
            n dim = Some e_prop ->
  e_prop <= e_cur ->
  exists x' logp' k' na',
    Mcmc.step rng exp (fun x => Mcmc.logp beta x n dim) w i (x, logp, k, na)
    = Some (x', logp', k', na')
    /\ nth c x' []
       = Chain.propose w (nth c x []) (nth c (step_noise rng x k) [])
    /\ nth c logp' 0 = - beta * e_prop.
Proof.
  intros Hinv Hbeta Hc Hu Hcur Hprop Hle.
  pose proof Hinv as Hinv0.
  apply (invariant_vmap key) in Hinv as [Hs Hv].
  pose proof (vmap_length _ _ _ Hv) as Hlen.
  assert (Hl : nth c logp 0 = - beta * e_cur).
  { pose proof (vmap_nth_default (boltzmann beta n dim) x logp c [] 0 Hv Hc)
      as Hb.
    unfold boltzmann in Hb. rewrite Hcur in Hb. injection Hb as Hb.
    symmetry. exact Hb. }
  destruct (vmap_total (boltzmann beta n dim) (step_proposal rng w x k))
    as (lp & Hlp & _).
  { intros xp Hin. apply boltzmann_total.
    now apply (step_proposal_shape key rng w x k n dim Hs). }
  do 4 eexists. split.
  - exact (step_eval key rng exp (boltzmann beta n dim) w i x logp k na lp
                     Hlen Hlp).
  - pose proof (step_chain key rng exp (boltzmann beta n dim) w i x logp k
                           na lp c Hlen Hlp Hc) as Hch.
    cbv zeta in Hch. change (@s0 R R_Scalar) with 0 in Hch.
    apply chain_step_rule in Hch as (lpc & Ht & Hacc & Hx' & Hl').
    unfold boltzmann in Ht. rewrite Hprop in Ht. injection Ht as Ht.
    cbn [smul sopp R_Scalar] in Ht.
    assert (Ha : nth c (step_accept rng exp x k lp logp) false = true).
    { apply Hacc. rewrite Hl, <- Ht.
      assert (1 <= exp (- beta * e_prop - - beta * e_cur))
        by (apply exp_ge_1; nra).
      lra. }
    rewrite Ha in Hx', Hl'. split; [exact Hx' |]. now rewrite Hl', <- Ht.
Qed.

End SamplerReal.

Section SamplerRealExamples.
Local Open Scope R_scope.

Lemma mcmc_rate_bounds_witness :
  exists x rate,
    Mcmc.mcmc Sample.rng exp (fun x => Mcmc.logp 10 x 2 1)
              Sample.z 0%nat 100 (1 / 10) = Some (x, rate)
    /\ length x = 1%nat /\ 0 <= rate <= 1.
Proof.
  destruct (mcmc_rate_bounds nat Sample.rng exp 10 2 1 (1 / 10) Sample.z
              0%nat 100 sample_shape ltac:(lia) ltac:(discriminate))
    as (x & rate & Hm & Hlen & _ & Hr).
  exists x, rate. split; [exact Hm |]. split; [exact Hlen | exact Hr].
Defined.

Lemma sampling_program_witness :
  exists s',
    Mcmc.sample_loop Sample.rng exp 20 10 6 2 100
                     (Mcmc.sample_init Sample.rng 0%nat 4 6 2 (1 / 10))
    = Some s'
    /\ length (Mcmc.printed s') = 20%nat
    /\ length (Mcmc.sx s') = 4%nat.
Proof.
  destruct (sampling_program nat Sample.rng exp 10 6 2 100 20 4 0%nat (1 / 10)
              ltac:(lia) ltac:(lia))
    as (s' & Hloop & Hn & _ & Hb & _).
  exists s'. split; [exact Hloop |]. split; [exact Hn | exact Hb].
Defined.

Lemma sample_state_invariant :
  chain_invariant (key := nat) 10 2 1 (Sample.z, [- 10 * 2], 0%nat, 0).
Proof.
  apply (invariant_vmap nat). split; [exact sample_shape |].
  unfold Sample.z. cbn [vmap]. unfold boltzmann. rewrite energy_pair01.
  reflexivity.
Qed.

Lemma sample_proposal :
  Chain.propose (1 / 10) (nth 0 Sample.z [])
                (nth 0 (step_noise Sample.rng Sample.z 0%nat) [])
  = [[0]; [1]].
Proof.
  cbn. repeat f_equal; lra.
Qed.

Lemma downhill_accepted_witness :
  exists x' logp' k' na',
    Mcmc.step Sample.rng exp (fun x => Mcmc.logp 10 x 2 1) (1 / 10) 0
              (Sample.z, [- 10 * 2], 0%nat, 0)
    = Some (x', logp', k', na')
    /\ nth 0 x' []
       = Chain.propose (1 / 10) (nth 0 Sample.z [])
                       (nth 0 (step_noise Sample.rng Sample.z 0%nat) [])
    /\ nth 0 logp' 0 = - 10 * 2.
Proof.
  apply (downhill_accepted nat Sample.rng 10 2 1 (1 / 10) 0 Sample.z
           [- 10 * 2] 0%nat 0 0 2 2).
  - exact sample_state_invariant.
  - lra.
  - simpl. lia.
  - unfold step_uniform. rewrite nth_uniform1 by (simpl; lia). simpl. lra.
  - exact energy_pair01.
  - rewrite sample_proposal. exact energy_pair01.
  - lra.
Defined.

End SamplerRealExamples.

(** ** MCMCSampler: the width controller *)

Section WidthControllerReal.
Local Open Scope R_scope.

Lemma of_dec_R (m k : nat) :
  of_dec m k = IZR (Z.of_nat m) / IZR (Z.of_nat (10 ^ k)).
Proof. cbn [of_dec R_Scalar]. now rewrite !INR_IZR_INZ. Qed.

Lemma adapt_width_real (acc w : R) :
  Mcmc.adapt_width acc w
  = if Rlt_dec (525 / 1000) acc then w * (105 / 100)
    else if Rlt_dec acc (475 / 1000) then w * (95 / 100) else w.
Proof.
  unfold Mcmc.adapt_width. rewrite !of_dec_R.
  change (Z.of_nat 525) with 525%Z. change (Z.of_nat 475) with 475%Z.
  change (Z.of_nat 105) with 105%Z. change (Z.of_nat 95) with 95%Z.
  change (Z.of_nat (10 ^ 3)) with 1000%Z.
  change (Z.of_nat (10 ^ 2)) with 100%Z.
  cbn [sltb smul R_Scalar].
  destruct (Rlt_dec (525 / 1000) acc) as [Hhi | Hhi];
    destruct (Rlt_dec acc (475 / 1000)) as [Hlo | Hlo];
    try reflexivity.
  exfalso. lra.
Qed.

(** X13. In exact arithmetic one adaptation changes a positive width by at
    most five per cent, keeps it positive, and leaves it alone for rates
    from 0.475 to 0.525; so every width of a trace that starts positive is
    positive. *)
Theorem adapt_width_bounds (acc w : R) :
  0 < w ->
  0 < Mcmc.adapt_width acc w
  /\ 95 / 100 * w <= Mcmc.adapt_width acc w <= 105 / 100 * w
  /\ (475 / 1000 <= acc <= 525 / 1000 -> Mcmc.adapt_width acc w = w)
  /\ (forall accs, Forall (fun v => 0 < v) (Mcmc.width_trace accs w)).
Proof.
  intros Hw.
  assert (Hstep : forall a v, 0 < v ->
            0 < Mcmc.adapt_width a v
            /\ 95 / 100 * v <= Mcmc.adapt_width a v <= 105 / 100 * v).
  { intros a v Hv. rewrite adapt_width_real.
    destruct (Rlt_dec (525 / 1000) a); [| destruct (Rlt_dec a (475 / 1000))];
      lra. }
  split; [apply Hstep, Hw |]. split; [apply Hstep, Hw |]. split.
  - intros Hacc. rewrite adapt_width_real.
    destruct (Rlt_dec (525 / 1000) acc); [lra |].
    destruct (Rlt_dec acc (475 / 1000)); [lra | reflexivity].
  - intros accs. revert w Hw.
    induction accs as [| a accs IH]; intros w Hw; [constructor |].
    cbn [Mcmc.width_trace]. constructor.
    + apply Hstep, Hw.
    + apply IH, Hstep, Hw.
Qed.

Lemma adapt_width_bounds_witness :
  0 < Mcmc.adapt_width (6 / 10) (1 / 10)
  /\ 95 / 100 * (1 / 10) <= Mcmc.adapt_width (6 / 10) (1 / 10)
     <= 105 / 100 * (1 / 10).
Proof.
  destruct (adapt_width_bounds (6 / 10) (1 / 10) ltac:(lra))
    as (Hpos & Hb & _).
  split; [exact Hpos | exact Hb].
Defined.

End WidthControllerReal.

Section NoInnerSteps.
Local Open Scope float_scope.

(** X12. In binary64, an outer iteration with no inner step ([mc_steps = 0])
    raises nothing: the positions are returned as they were, the reported
    acceptance rate is NaN (the quotient [0. / 0]), and, NaN being neither
    above 0.525 nor below 0.475, the width is left unchanged. *)
Theorem sample_iter_no_steps
        (key : Type) (rng : Random key float) (exp : float -> float)
        (beta : float) (n dim : nat) (s : Mcmc.sampler_state float key) :
  (forall xb, In xb (Mcmc.sx s) -> shape xb n dim) ->
  exists s' E,
    Mcmc.sample_iter rng exp beta n dim 0 s = Some s'
    /\ Mcmc.mcmc rng exp (fun x => Mcmc.logp beta x n dim) (Mcmc.sx s)
                 (split rng (Mcmc.skey s) 2 1) 0 (Mcmc.swidth s)
       = Some (Mcmc.sx s, nan)
    /\ Mcmc.sx s' = Mcmc.sx s
    /\ Mcmc.swidth s' = Mcmc.swidth s
    /\ Mcmc.printed s'
       = Mcmc.printed s
         ++ [{| Mcmc.rep_E := E; Mcmc.rep_acc := nan;
                Mcmc.rep_width := Mcmc.swidth s |}].
Proof.
  intros Hs.
  destruct (sample_iter_eval key rng exp beta n dim 0 s Hs)
    as (s' & logp_init & x & logp & kf & na
        & Hinit & Hloop & Hiter & Hx & _ & _ & Hw & E & Hp).
  unfold Mcmc.fori_loop in Hloop. cbn [Nat.sub Mcmc.fori_loop_from] in Hloop.
  injection Hloop as <- _ _ <-.
  assert (Hrate : @sdiv float _ PrimFloat.zero
                        (of_int (0 * length (Mcmc.sx s))) = nan)
    by reflexivity.
  rewrite Hrate in Hw, Hp.
  exists s', E. split; [exact Hiter |]. split.
  - unfold Mcmc.mcmc. rewrite Hinit. reflexivity.
  - split; [exact Hx |]. split; [| exact Hp].
    rewrite Hw, adapt_width_binary64. reflexivity.
Qed.

Lemma sample_iter_no_steps_witness :
  exists s',
    Mcmc.sample_iter
      {| split := fun (k : nat) (num i : nat) => (k * num + i + 1)%nat;
         normal_flat := fun _ _ _ => 0;
         uniform_flat := fun _ _ _ => 0.5 |}
      (fun a : float => a) 10 2 1 0
      {| Mcmc.sx := [[[0]; [1]]]; Mcmc.skey := 0%nat;
         Mcmc.swidth := 0.1; Mcmc.printed := [] |}
    = Some s'
    /\ Mcmc.swidth s' = 0.1.
Proof.
  destruct (sample_iter_no_steps nat
              {| split := fun (k : nat) (num i : nat) => (k * num + i + 1)%nat;
                 normal_flat := fun _ _ _ => 0;
                 uniform_flat := fun _ _ _ => 0.5 |}
              (fun a : float => a) 10 2 1
              {| Mcmc.sx := [[[0]; [1]]]; Mcmc.skey := 0%nat;
                 Mcmc.swidth := 0.1; Mcmc.printed := [] |})
    as (s' & E & Hiter & _ & _ & Hw & _).
  - intros xb [<- | []]. split; [reflexivity | repeat constructor].
  - exists s'. split; [exact Hiter | exact Hw].
Defined.

End NoInnerSteps.

(** ** EnergyModel in binary64: the sign of the result *)

Section Binary64Sign.

Lemma energy_fn_ok (b : bool) (x : mat float) (n dim : nat) :
  coords_ok b x -> shape x n dim ->
  exists e, energy_fn x n dim = Some e /\ sf_ok b (Prim2SF e).
Proof.
  intros Hx [Hn Hrows]. unfold energy_fn.
  rewrite (reshape_concat n dim x Hn Hrows). cbv zeta.
  eexists. split; [reflexivity |].
  cbn [sadd float_Scalar]. rewrite add_spec. apply add_ok.
  - apply jnp_sum_ok, square_ok. apply Forall_concat.
    eapply Forall_impl; [| exact Hx].
    intros r Hr. eapply Forall_impl; [| exact Hr]. intros a. apply fin_any.
  - rewrite map_map. apply jnp_sum_ok.
    apply Forall_map, Forall_forall. intros p _.
    apply recip_prim_ok, distance_ok, Hx.
Qed.

Lemma ok_not_below_zero (e : float) :
  sf_ok true (Prim2SF e) -> PrimFloat.ltb e PrimFloat.zero = false.
Proof.
  intros Hok. rewrite ltb_spec.
  replace (Prim2SF PrimFloat.zero) with (S754_zero false)
    by (vm_compute; reflexivity).
  destruct (Prim2SF e) as [s | s | | s m ex]; simpl in Hok; subst;
    reflexivity.
Qed.

Lemma ok_not_nan (e : float) :
  sf_ok false (Prim2SF e) -> PrimFloat.is_nan e = false.
Proof.
  intros Hok. unfold PrimFloat.is_nan. rewrite eqb_spec.
  destruct (Prim2SF e) as [s | s | | s m ex]; simpl in Hok;
    try discriminate; subst; try reflexivity.
  unfold SFeqb, SFcompare. now rewrite Z.compare_refl, Pos.compare_cont_refl.
Qed.

(** X14. In binary64, on every array of the declared shape, whatever its
    entries, [energy_fn] returns a value that is not below zero (a
    non-negative number, [+infinity] or NaN, never a negative number or
    [-infinity]); when all coordinates are finite it is not NaN. *)
Theorem energy_fn_never_negative (x : mat float) (n dim : nat) :
  shape x n dim ->
  exists e,
    energy_fn x n dim = Some e
    /\ PrimFloat.ltb e PrimFloat.zero = false
    /\ (Forall (Forall (fun a => PrimFloat.is_finite a = true)) x ->
        PrimFloat.is_nan e = false).
Proof.
  intros Hs.
  destruct (energy_fn_ok true x n dim (coords_ok_true x) Hs) as (e & He & Hok).
  exists e. split; [exact He |]. split; [now apply ok_not_below_zero |].
  intros Hfin.
  destruct (energy_fn_ok false x n dim (coords_ok_finite x Hfin) Hs)
    as (e' & He' & Hok').
  rewrite He in He'. injection He' as <-. now apply ok_not_nan.
Qed.

Lemma energy_fn_never_negative_witness :
  exists e,
    energy_fn [[(-3)%float; 0%float]; [0%float; 4%float]] 2 2 = Some e
    /\ PrimFloat.ltb e PrimFloat.zero = false
    /\ PrimFloat.is_nan e = false.
Proof.
  destruct (energy_fn_never_negative
              [[(-3)%float; 0%float]; [0%float; 4%float]] 2 2)
    as (e & He & Hlt & Hnan).
  - split; [reflexivity | repeat constructor].
  - exists e. split; [exact He |]. split; [exact Hlt |].
    apply Hnan. repeat constructor.
Defined.

End Binary64Sign.

(** ** The flow: shapes through flattening *)

Lemma concat_chunks {X : Type} (k n : nat) (l : list X) :
  length l = n * k -> concat (chunks k n l) = l.
Proof.
  revert l. induction n as [| n IH]; intros l Hl; simpl.
  - destruct l; [reflexivity | discriminate].
  - rewrite IH by (rewrite length_skipn; simpl in Hl; lia).
    apply firstn_skipn.
Qed.

Section FlowShapes.
Context {A : Type} `{Scalar A}.

Variable params : Type.
Variable mlp : params -> list A -> list A.
Variables (n dim : nat).
Hypothesis mlp_width :
  forall p v, length v = n * dim -> length (mlp p v) = n * dim.

(** X15. The network accepts exactly the arrays of [n * dim] entries; for
    those it returns an [n x dim] array whose row-major contents are the
    output of the perceptron on the row-major contents of its input. *)
Theorem network_call_shape (p : params) (z : mat A) :
  (length (concat z) = n * dim ->
   exists x, Network.call mlp n dim p z = Some x
             /\ shape x n dim
             /\ concat x = mlp p (concat z))
  /\ (length (concat z) <> n * dim -> Network.call mlp n dim p z = None).
Proof.
  unfold Network.call, Network.reshape1, reshape. split.
  - intros Hz. rewrite Hz, Nat.eqb_refl.
    rewrite (mlp_width p (concat z) Hz), Nat.eqb_refl.
    eexists. split; [reflexivity |]. split.
    + split; [apply chunks_length |]. apply chunks_rows.
      now apply mlp_width.
    + apply concat_chunks. now apply mlp_width.
  - intros Hz. destruct (Nat.eqb_spec (length (concat z)) (n * dim));
      [contradiction | reflexivity].
Qed.

End FlowShapes.

Section FlowShapesExamples.

Lemma network_call_shape_witness :
  exists x, Network.call (fun (_ : unit) (v : list nat) => v) 2 1 tt
                         [[0]; [1]] = Some x
            /\ shape (A := nat) x 2 1.
Proof.
  destruct (proj1 (network_call_shape (A := nat) unit (fun _ v => v) 2 1
                     (fun _ v Hv => Hv) tt [[0]; [1]]) eq_refl)
    as (x & Hx & Hs & _).
  exists x. split; [exact Hx | exact Hs].
Defined.

End FlowShapesExamples.

Section FlattenConsistency.
Context {A : Type} `{Scalar A}.

Variable params : Type.
Variable flow_apply : params -> mat A -> mat A.
Variable norm_logpdf : A -> A.
Variable jacfwd : (list A -> list A) -> list A -> mat A.
Variable slogdet : mat A -> A * A.

(** X16. For a rectangular latent sample, un-flattening the flattened [z]
    with the shape read off [z] gives [z] back; hence the function whose
    Jacobian [logp] takes, evaluated at the point where it is
    differentiated, is the flattened [x] that [logp] returns. *)
Theorem flow_flatten_at_z (z : mat A) (p : params) (n dim : nat) :
  shape z n dim ->
  chunks (snd (Flow.shape2 z)) (fst (Flow.shape2 z)) (concat z) = z
  /\ concat (flow_apply p (chunks (snd (Flow.shape2 z))
                                  (fst (Flow.shape2 z)) (concat z)))
     = concat (snd (Flow.logp_novmap flow_apply norm_logpdf jacfwd slogdet
                                     z p)).
Proof.
  intros [Hn Hrows].
  assert (Hz : chunks (snd (Flow.shape2 z)) (fst (Flow.shape2 z)) (concat z)
               = z).
  { unfold Flow.shape2. cbn [fst snd]. apply chunks_concat.
    destruct z as [| r z]; [constructor |]. cbn [hd].
    inversion Hrows as [| ? ? Hr Hrest]; subst.
    constructor; [reflexivity |].
    eapply Forall_impl; [| exact Hrest]. intros r' Hr'. now rewrite Hr'. }
  split; [exact Hz |]. now rewrite Hz, logp_novmap_x.
Qed.

End FlattenConsistency.

Section FlattenConsistencyExamples.
Local Open Scope R_scope.

Lemma flow_flatten_at_z_witness :
  chunks 1 2 (concat [[0]; [1]]) = [[0]; [1]].
Proof.
  exact (proj1 (flow_flatten_at_z unit Sample.flow_apply Sample.norm_logpdf
                  Sample.jacfwd Sample.slogdet [[0]; [1]] tt 2 1
                  pair01_shape)).
Defined.

End FlattenConsistencyExamples.

(** ** The energy-minimisation notebook *)

Section DescentLoop.
Context {A : Type} `{Scalar A}.

Variable grad_energy : mat A -> nat -> nat -> mat A.
Variables (n dim : nat).
Hypothesis grad_shape :
  forall x, shape x n dim -> shape (grad_energy x n dim) n dim.

Lemma zip_rows_shape (f : A -> A -> A) (x g : mat A) :
  shape x n dim -> shape g n dim ->
  shape (zip_with (zip_with f) x g) n dim.
Proof.
  intros [Hn Hrows] [Hn' Hrows']. split.
  - rewrite zip_with_length; lia.
  - clear Hn Hn'. revert g Hrows'.
    induction Hrows as [| r x Hr _ IH]; intros g Hrows'; [constructor |].
    destruct Hrows' as [| r' g Hr' Hrows']; [constructor |].
    simpl. constructor; [| now apply IH].
    rewrite zip_with_length; lia.
Qed.

Lemma energy_optimize_eval (lr : A) (x : mat A) :
  shape x n dim ->
  exists x' e g,
    Descent.energy_optimize grad_energy lr n dim x = Some (x', e, g)
    /\ energy_fn x n dim = Some e
    /\ shape x' n dim.
Proof.
  intros Hs. unfold Descent.energy_optimize, Descent.energy_and_grad.
  destruct (energy_fn_total x n dim Hs) as [e He]. rewrite He.
  do 3 eexists. split; [reflexivity |]. split; [reflexivity |].
  apply zip_rows_shape; [exact Hs | apply grad_shape, Hs].
Qed.

(** X17. Gradient descent on a well-shaped configuration never fails (the
    gradient having the shape of its argument) and keeps the shape; the
    history gains one single-entry row per iteration, and the first energy
    it records is the energy of the configuration the loop started from,
    that is, each recorded energy is taken before the update of its
    iteration. *)
Theorem optimize_loop_history (iters : nat) (lr : A) (x : mat A)
        (energy_history : list (list A)) :
  shape x n dim ->
  exists x' es,
    Descent.optimize_loop grad_energy iters lr n dim x energy_history
    = Some (x', energy_history ++ map (fun e => [e]) es)
    /\ length es = iters
    /\ shape x' n dim
    /\ (0 < iters -> exists e0, energy_fn x n dim = Some e0
                                /\ hd_error es = Some e0).
Proof.
  revert x energy_history. induction iters as [| iters IH];
    intros x energy_history Hs.
  - exists x, []. cbn. rewrite app_nil_r.
    split; [reflexivity |]. split; [reflexivity |]. split; [exact Hs | lia].
  - destruct (energy_optimize_eval lr x Hs) as (x1 & e & g & Hopt & He & Hs1).
    destruct (IH x1 (energy_history ++ [[e]]) Hs1)
      as (x' & es & Hloop & Hlen & Hs' & _).
    exists x', (e :: es). cbn [Descent.optimize_loop]. rewrite Hopt, Hloop.
    split; [cbn [map]; now rewrite <- app_assoc |].
    split; [simpl; now rewrite Hlen |]. split; [exact Hs' |].
    intros _. exists e. split; [exact He | reflexivity].
Qed.

End DescentLoop.

Section DescentLoopExamples.
Local Open Scope R_scope.

Lemma optimize_loop_history_witness :
  exists x' es,
    Descent.optimize_loop (fun (x : mat R) (_ _ : nat) => x) 5 (1 / 100) 2 1
                          [[0]; [1]] []
    = Some (x', map (fun e => [e]) es)
    /\ length es = 5%nat
    /\ hd_error es = Some 2.
Proof.
  destruct (optimize_loop_history (fun (x : mat R) (_ _ : nat) => x) 2 1
              (fun x Hx => Hx) 5 (1 / 100) [[0]; [1]] [] pair01_shape)
    as (x' & es & Hloop & Hlen & _ & Hfirst).
  exists x', es. split; [exact Hloop |]. split; [exact Hlen |].
  destruct (Hfirst ltac:(lia)) as (e0 & He0 & Hhd).
  rewrite energy_pair01 in He0. injection He0 as <-. exact Hhd.
Defined.

End DescentLoopExamples.
